(** * deploy_to_venus.py: packaging and deployment of a source tree

  A shallow embedding of [deploy_to_venus.py] and of the parts of the
  Python standard library it calls ([str], [pathlib] in its POSIX
  flavour, [shlex.quote], [tarfile.TarFile.add]), followed by the
  properties of the deployment tool.

  Python [str] values are modelled as [string] (sequences of 8-bit
  characters), Python sets as [gset], the temporary directory as a
  [gmap] from file names to archives. *)

From Stdlib Require Import ZArith Ascii String List Bool Lia.
From stdpp Require Import base decidable option list sets gmap strings sorting.

Local Open Scope string_scope.
Local Open Scope list_scope.

(** ** Python [str] operations *)

Module PyStr.

Definition slash : ascii := "/"%char.

(** [s.startswith(p)] *)
Fixpoint startswith (s p : string) {struct p} : bool :=
  match p, s with
  | EmptyString, _ => true
  | String _ _, EmptyString => false
  | String b p', String a s' => if Ascii.eqb a b then startswith s' p' else false
  end.

(** [s[n:]] *)
Fixpoint drop (n : nat) (s : string) : string :=
  match n, s with
  | O, _ => s
  | S _, EmptyString => EmptyString
  | S n', String _ s' => drop n' s'
  end.

(** [s.endswith(suf)]: the last [len(suf)] characters of [s] are [suf]. *)
Definition endswith (s suf : string) : bool :=
  Nat.leb (String.length suf) (String.length s)
  && String.eqb (drop (String.length s - String.length suf) s) suf.

(** [s.split(sep)] for a one-character separator: never the empty list. *)
Fixpoint split (sep : ascii) (s : string) : list string :=
  match s with
  | EmptyString => [EmptyString]
  | String c s' =>
      if Ascii.eqb c sep then EmptyString :: split sep s'
      else match split sep s' with
           | [] => [String c EmptyString]
           | w :: ws => String c w :: ws
           end
  end.

(** [sep.join(l)] *)
Fixpoint join (sep : string) (l : list string) : string :=
  match l with
  | [] => EmptyString
  | [x] => x
  | x :: l' => x +:+ sep +:+ join sep l'
  end.

(** [s.lstrip(c)] for a one-character set. *)
Fixpoint lstrip (c : ascii) (s : string) : string :=
  match s with
  | String a s' => if Ascii.eqb a c then lstrip c s' else s
  | EmptyString => EmptyString
  end.

(** [s.replace(c, r)] for a one-character pattern. *)
Fixpoint replace (c : ascii) (r : string) (s : string) : string :=
  match s with
  | EmptyString => EmptyString
  | String a s' =>
      if Ascii.eqb a c then r +:+ replace c r s' else String a (replace c r s')
  end.

(** [c in s] for a character. *)
Fixpoint contains (c : ascii) (s : string) : bool :=
  match s with
  | EmptyString => false
  | String a s' => Ascii.eqb a c || contains c s'
  end.

End PyStr.

(** ** [pathlib.PurePosixPath] *)

Module PurePath.

(** A parsed path: the root (empty, one slash, or two slashes) and the
    remaining components.  The drive is always empty on POSIX. *)
Record t : Type := mk { root : string; tail : list string }.

(** [posixpath.splitroot], without the (empty) drive. *)
Definition splitroot (p : string) : string * string :=
  match p with
  | String "/" (String "/" (String "/" r)) => ("/", String "/" (String "/" r))
  | String "/" (String "/" r) => ("//", r)
  | String "/" r => ("/", r)
  | _ => ("", p)
  end.

(** [x for x in rel.split(sep) if x and x != '.'] *)
Definition keep_part (x : string) : bool :=
  negb (String.eqb x "") && negb (String.eqb x ".").

(** [PurePath._parse_path] *)
Definition parse (path : string) : t :=
  let '(r, rel) := splitroot path in
  mk r (List.filter keep_part (PyStr.split PyStr.slash rel)).

(** [PurePath.parts] *)
Definition parts (p : t) : list string :=
  if String.eqb (root p) "" then tail p else root p :: tail p.

(** [PurePath.name] *)
Definition name (p : t) : string := List.last (tail p) "".

(** [PurePath.parent] *)
Definition parent (p : t) : t :=
  match tail p with
  | [] => p
  | _ => mk (root p) (List.removelast (tail p))
  end.

(** [str(path)] *)
Definition to_str (p : t) : string :=
  let s := root p +:+ PyStr.join "/" (tail p) in
  if String.eqb s "" then "." else s.

End PurePath.

(** [Path(s)] *)
Definition Path (s : string) : PurePath.t := PurePath.parse s.

(** ** The filter rule set *)

Definition IGNORE_NAMES : gset string :=
{[ ".git"; ".github"; ".vscode"; "__pycache__"; ".mypy_cache";
   ".pytest_cache"; ".venv"; "venv"; "terminals" ]}.

Definition IGNORE_SUFFIXES : gset string := {[ ".pyc"; ".pyo"; ".pdb" ]}.

(** ** [tarfile.TarInfo], as far as the tool looks at it *)

Inductive tartype : Type := REGTYPE | DIRTYPE.

Record TarInfo : Type := mkTarInfo { ti_name : string; ti_type : tartype }.

(** [any(p(x) for x in xs)] *)
Definition any {A} (p : A → bool) (xs : list A) : bool := List.existsb p xs.

(** [tar_filter] *)
Definition tar_filter (tarinfo : TarInfo) : option TarInfo :=
let path_parts := PurePath.parts (Path (ti_name tarinfo)) in
if any (λ part, bool_decide (part ∈ IGNORE_NAMES)) path_parts then None
else if any (λ suffix, PyStr.endswith (PurePath.name (Path (ti_name tarinfo))) suffix)
            (elements IGNORE_SUFFIXES) then None
else Some tarinfo.



(** ** [shlex.quote] *)

Module shlex.

Definition dquote : ascii := "034"%char.

(** The characters outside [[^\w@%+=:,./-]] under [re.ASCII]. *)
Definition is_safe (c : ascii) : bool :=
  let n := nat_of_ascii c in
  Nat.leb 48 n && Nat.leb n 57 || Nat.leb 65 n && Nat.leb n 90
  || Nat.leb 97 n && Nat.leb n 122 || PyStr.contains c "_@%+=:,./-".

(** [_find_unsafe(s) is not None] *)
Fixpoint find_unsafe (s : string) : bool :=
  match s with
  | EmptyString => false
  | String c s' => negb (is_safe c) || find_unsafe s'
  end.

(** The replacement for a single quote: quote, double-quoted quote, quote. *)
Definition escaped_quote : string :=
  String "'" (String dquote (String "'" (String dquote (String "'" "")))).

(** [shlex.quote] *)
Definition quote (s : string) : string :=
  if String.eqb s "" then "''"
  else if negb (find_unsafe s) then s
  else "'" +:+ PyStr.replace "'" escaped_quote s +:+ "'".

End shlex.

(** ** The operator's machine

    The local file system is a tree of directories and regular files
    without symbolic links; a regular file may be unreadable, in which
    case opening it raises.  A directory lists its entries in the order
    [os.listdir] returns them.  Directories that cannot be listed, links
    and special files are not part of the model: what is proved of an
    archive is proved for the regular files and directories of a tree.
    The temporary directory is kept apart from this tree: the archive
    is never one of the files it packs. *)

#[warnings="-register-all"]
Inductive node : Type :=
| File (readable : bool)
| Dir (entries : list (string * node)).

Fixpoint child (f : string) (entries : list (string * node)) : option node :=
  match entries with
  | [] => None
  | (g, n) :: rest => if String.eqb f g then Some n else child f rest
  end.

(** The node reached from [n] along the components [ps]. *)
Fixpoint walk (n : node) (ps : list string) : option node :=
  match ps with
  | [] => Some n
  | p :: ps' =>
      match n with
      | Dir entries =>
          match child p entries with
          | Some c => walk c ps'
          | None => None
          end
      | File _ => None
      end
  end.

Record Env : Type := mkEnv {
  env_which : string → option string;   (* [shutil.which] *)
  env_cwd : list string;                (* the components of [os.getcwd()] *)
  env_root : node;                      (* the file system, from [/] *)
  env_tmp_name : string;                (* the name [NamedTemporaryFile] picks *)
  env_status : list string → Z;         (* exit status of an external command *)
  env_remote_is_dir : string → bool     (* the directories of the target device *)
}.

(** What an invocation changes: the files of the temporary directory
    (each an archive, given by its members in order), the external
    commands started so far, and the lines printed. *)
Record State : Type := mkState {
  st_tmp : gmap string (list TarInfo);
  st_calls : list (list string);
  st_stdout : list string
}.

Inductive exn : Type :=
| SystemExit (msg : string)
| CalledProcessError (returncode : Z) (cmd : list string)
| PermissionError (filename : string)
| FileNotFoundError (filename : string).

Inductive result (A : Type) : Type :=
| Return (a : A)
| Raise (e : exn).

Arguments Return {A} a.
Arguments Raise {A} e.

(** Computations that read and change the state and may raise. *)
Definition M (A : Type) : Type := State → result A * State.

#[global] Instance M_ret : MRet M := λ A a s, (Return a, s).

#[global] Instance M_bind : MBind M := λ A B f m s,
  match m s with
  | (Return a, s') => f a s'
  | (Raise e, s') => (Raise e, s')
  end.

Definition raise {A} (e : exn) : M A := λ s, (Raise e, s).

(** [try: body finally: fin] *)
Definition try_finally {A} (body : M A) (fin : M unit) : M A := λ s,
  let '(r, s1) := body s in
  match fin s1 with
  | (Return _, s2) => (r, s2)
  | (Raise e, s2) => (Raise e, s2)
  end.

(** [sys.exit(msg)] *)
Definition sys_exit {A} (msg : string) : M A := raise (SystemExit msg).

(** [print(line)] *)
Definition print (line : string) : M unit := λ s,
  (Return tt, mkState (st_tmp s) (st_calls s) (st_stdout s ++ [line])).

(** The exit status of the process, and what it writes to standard
    error, when [main] ends with [r]: a [SystemExit] carrying a string
    prints it and exits with status 1, as does an uncaught exception
    with its traceback. *)
Definition exit_code {A} (r : result A) : Z :=
  match r with
  | Return _ => 0
  | Raise _ => 1
  end.

Definition stderr {A} (r : result A) : option string :=
  match r with
  | Return _ => None
  | Raise (SystemExit msg) => Some msg
  | Raise (CalledProcessError _ _) => Some "subprocess.CalledProcessError"
  | Raise (PermissionError _) => Some "PermissionError"
  | Raise (FileNotFoundError _) => Some "FileNotFoundError"
  end.

(** ** [pathlib.Path] on this machine *)

(** One step of [os.path.realpath] without links: [..] drops the last
    component (and stays at the root), any other name is appended. *)
Definition resolve_step (acc : list string) (p : string) : list string :=
  if String.eqb p ".." then List.removelast acc else acc ++ [p].

(** [Path.resolve()] *)
Definition resolve (env : Env) (p : PurePath.t) : PurePath.t :=
  PurePath.mk "/"
    (fold_left resolve_step (PurePath.tail p)
       (if String.eqb (PurePath.root p) "" then env_cwd env else [])).

(** [Path.is_dir()] *)
Definition is_dir (env : Env) (p : PurePath.t) : bool :=
  match walk (env_root env) (PurePath.tail (resolve env p)) with
  | Some (Dir _) => true
  | _ => false
  end.

(** The file of the temporary directory that a path string names: the
    files are kept under the normal form of their path. *)
Definition file_of (path : string) : string := PurePath.to_str (Path path).

(** [Path.unlink(missing_ok=True)], for a file of the temporary directory *)
Definition unlink (p : PurePath.t) : M unit := λ s,
  (Return tt, mkState (delete (PurePath.to_str p) (st_tmp s)) (st_calls s) (st_stdout s)).

(** [tempfile.NamedTemporaryFile(delete=False, ...)] followed by [close()]:
    an empty file is left in the temporary directory. *)
Definition NamedTemporaryFile (env : Env) : M string := λ s,
  (Return (env_tmp_name env),
   mkState (<[file_of (env_tmp_name env) := []]> (st_tmp s)) (st_calls s) (st_stdout s)).

(** ** [posixpath.join] and [tarfile.TarFile.add] *)

Definition path_join (a b : string) : string :=
  if PyStr.startswith b "/" then b
  else if String.eqb a "" || PyStr.endswith a "/" then a +:+ b
  else a +:+ "/" +:+ b.

(** [TarFile.gettarinfo]: the member name is the archive name without
    leading slashes. *)
Definition gettarinfo (n : node) (arcname : string) : TarInfo :=
  mkTarInfo (PyStr.lstrip PyStr.slash arcname)
            (match n with File _ => REGTYPE | Dir _ => DIRTYPE end).

(** What one call of [add] appended, and the exception that ended it. *)
Definition added : Type := list TarInfo * option exn.

(** [for f in sorted(...): self.add(...)]: the visits in order, up to
    the first one that raises. *)
Fixpoint run_visits (visits : list (string * added)) : added :=
  match visits with
  | [] => ([], None)
  | (_, (members, Some e)) :: _ => (members, Some e)
  | (_, (members, None)) :: rest =>
      let '(members', e) := run_visits rest in (members ++ members', e)
  end.

(** The order of [sorted] on names: character by character.  Names are
    byte strings here, which orders them as Python orders its strings
    when the names are ASCII or valid UTF-8. *)
Definition by_name (a b : string * added) : Prop := String.le a.1 b.1.

#[global] Instance by_name_dec : RelDecision by_name.
Proof. intros a b. unfold by_name. apply _. Defined.

(** [TarFile.add(name, arcname, filter=filter)] on the node that [name]
    denotes.  A member the filter rejects is skipped with everything
    under it; a regular file is opened before it is appended; the
    entries of a directory follow it in sorted order.  Each visit only
    appends to the archive, so the loop over the sorted names is the
    sorted sequence of the visits. *)
Fixpoint tar_add (filter : TarInfo → option TarInfo)
    (n : node) (name arcname : string) : added :=
  match filter (gettarinfo n arcname) with
  | None => ([], None)
  | Some tarinfo =>
      match n with
      | File readable =>
          if readable then ([tarinfo], None) else ([], Some (PermissionError name))
      | Dir entries =>
          let visits :=
            List.map (λ e, match e with
                           | (f, c) => (f, tar_add filter c (path_join name f) (path_join arcname f))
                           end) entries in
          let '(members, e) := run_visits (merge_sort by_name visits) in
          (tarinfo :: members, e)
      end
  end.

(** [with tarfile.open(archive_path, "w:gz") as tar: tar.add(...)]: the
    file is truncated, the members are written, and the archive is
    closed also when [add] raises. *)
Definition tarfile_write (env : Env) (archive_path source : PurePath.t)
    (arcname : string) (filter : TarInfo → option TarInfo) : M unit := λ s,
  match walk (env_root env) (PurePath.tail (resolve env source)) with
  | None =>
      (Raise (FileNotFoundError (PurePath.to_str source)),
       mkState (<[PurePath.to_str archive_path := []]> (st_tmp s)) (st_calls s) (st_stdout s))
  | Some n =>
      let '(members, e) := tar_add filter n (PurePath.to_str source) arcname in
      let s' := mkState (<[PurePath.to_str archive_path := members]> (st_tmp s))
                        (st_calls s) (st_stdout s) in
      match e with
      | None => (Return tt, s')
      | Some e => (Raise e, s')
      end
  end.

(** ** The deployment tool *)

Definition DEFAULT_HOST : string := "root@10.1.87.45".
Definition DEFAULT_REMOTE_PATH : string := "/data/apps/dbus-serialbattery".
Definition SOURCE_DIR : string := "dbus-serialbattery".

(** The namespace [parse_args] returns. *)
Record Args : Type := mkArgs {
  host : string;
  remote_path : string;
  source : string;
  skip_backup : bool
}.

Definition default_args : Args :=
  mkArgs DEFAULT_HOST DEFAULT_REMOTE_PATH SOURCE_DIR false.

(** [ensure_tools] *)
Definition ensure_tools (env : Env) : M unit :=
  let missing :=
    List.filter (λ cmd, match env_which env cmd with None => true | Some _ => false end)
                ["ssh"; "scp"] in
  match missing with
  | [] => mret tt
  | _ => sys_exit ("Missing required commands: " +:+ PyStr.join ", " missing)
  end.

(** [build_archive] *)
Definition build_archive (env : Env) (source : PurePath.t) : M PurePath.t :=
  if negb (is_dir env source) then
    sys_exit ("Source directory not found: " +:+ PurePath.to_str source)
  else
    tmp ← NamedTemporaryFile env;
    let archive_path := Path tmp in
    tarfile_write env archive_path source (PurePath.name source) tar_filter;;
    mret archive_path.

(** [run]: [subprocess.run(cmd, check=True)] *)
Definition run (env : Env) (cmd : list string) : M unit := λ s,
  let s' := mkState (st_tmp s) (st_calls s ++ [cmd]) (st_stdout s) in
  if Z.eqb (env_status env cmd) 0 then (Return tt, s')
  else (Raise (CalledProcessError (env_status env cmd) cmd), s').

(** The three values [deploy] computes before it runs anything. *)
Definition remote_tmp (remote_path : PurePath.t) : string :=
  "/tmp/" +:+ PurePath.name remote_path +:+ "-deploy.tar.gz".

Definition remote_base (remote_path : PurePath.t) : string :=
  PurePath.to_str (PurePath.parent remote_path).

Definition backup_cmd (remote_path : PurePath.t) (skip_backup : bool) : string :=
  if negb skip_backup then
    "if [ -d " +:+ shlex.quote (PurePath.name remote_path) +:+ " ]; then "
    +:+ "TS=$(date +%Y%m%d%H%M%S); "
    +:+ "tar czf " +:+ shlex.quote (PurePath.name remote_path) +:+ "-backup-$TS.tar.gz "
    +:+ shlex.quote (PurePath.name remote_path) +:+ "; "
    +:+ "fi;"
  else "".

Definition remote_cmd (remote_path : PurePath.t) (skip_backup : bool) : string :=
  "set -euo pipefail; "
  +:+ "mkdir -p " +:+ shlex.quote (remote_base remote_path) +:+ "; "
  +:+ "cd " +:+ shlex.quote (remote_base remote_path) +:+ "; "
  +:+ backup_cmd remote_path skip_backup
  +:+ "rm -rf " +:+ shlex.quote (PurePath.name remote_path) +:+ "; "
  +:+ "tar xzf " +:+ shlex.quote (remote_tmp remote_path)
  +:+ " -C " +:+ shlex.quote (remote_base remote_path) +:+ "; "
  +:+ "rm -f " +:+ shlex.quote (remote_tmp remote_path).

Definition done_message (skip_backup : bool) : string :=
  if negb skip_backup then "[3/3] Done. Previous install backed up with timestamp suffix."
  else "[3/3] Done.".

(** [deploy] *)
Definition deploy (env : Env) (host : string) (remote_path archive_path : PurePath.t)
    (skip_backup : bool) : M unit :=
  print ("[1/3] Uploading archive to " +:+ host +:+ ":" +:+ remote_tmp remote_path);;
  run env ["scp"; PurePath.to_str archive_path; host +:+ ":" +:+ remote_tmp remote_path];;
  print ("[2/3] Deploying to " +:+ host +:+ ":" +:+ PurePath.to_str remote_path);;
  run env ["ssh"; host; remote_cmd remote_path skip_backup];;
  print (done_message skip_backup).

(** [main], after [parse_args] *)
Definition main (env : Env) (args : Args) : M unit :=
  ensure_tools env;;
  let source_dir := resolve env (Path (source args)) in
  let remote_path := Path (remote_path args) in
  archive_path ← build_archive env source_dir;
  try_finally (deploy env (host args) remote_path archive_path (skip_backup args))
              (unlink archive_path).

(** The state an invocation starts from. *)
Definition initial (tmp : gmap string (list TarInfo)) : State := mkState tmp [] [].

(** [parse_args], the first call of [main]: what [argparse] makes of the
    command line is not modelled, its outcome is taken as given.  It
    returns the namespace; or, for [-h] and [--help], it prints the help
    text and exits with status 0; or, for a command line it does not
    accept, it prints a usage message and exits with status 2. *)
Inductive parsed : Type :=
| Parsed (args : Args)
| HelpExit
| UsageExit.

(** The exit status of the process that runs [main]. *)
Definition process_status (env : Env) (cmdline : parsed) (s : State) : Z :=
  match cmdline with
  | Parsed args => exit_code (main env args s).1
  | HelpExit => 0
  | UsageExit => 2
  end.

(** ** The remote shell: token recognition

    How a POSIX shell splits a command string into tokens (Shell Command
    Language, sections 2.2 and 2.3), for the constructs the tool's
    command uses: blanks, control operators, single and double quotes,
    [$NAME] and [$(...)].  A construct outside this fragment makes the
    lexer fail: a backslash, a backquote, a comment, and every word in
    which an unquoted character would start a pathname, tilde or brace
    expansion. *)

Module Sh.

(** A piece of a word: a quoted character (taken as it is), an unquoted
    character, a parameter expansion, a command substitution. *)
Inductive seg : Type :=
| Q (c : ascii)
| U (c : ascii)
| Param (name : string)
| CmdSubst (body : string).

#[global] Instance seg_eq_dec : EqDecision seg.
Proof. solve_decision. Defined.

Inductive token : Type :=
| Word (w : list seg)
| Op (c : ascii).

Inductive mode : Type :=
| Unquoted
| Single
| Double
| Dollar
| PName (acc : string)
| Subst (depth : nat) (acc : string).

Record lstate : Type := mkL {
  l_mode : mode;
  l_cur : option (list seg);   (* the word being read, if one has started *)
  l_out : list token           (* the tokens read, last first *)
}.

Definition is_blank (c : ascii) : bool :=
  Ascii.eqb c " " || Ascii.eqb c "009".

Definition is_operator (c : ascii) : bool :=
  PyStr.contains c ";&|<>()" || Ascii.eqb c "010".

(** The characters that do not stand for themselves when they are not
    quoted (section 2.2).  First those that never do: the operator
    characters, blank and newline, and [$], the backquote, the backslash
    and the two quotes.  Then, of those that do not in some places, the
    ones that begin or end a construct of their own wherever they stand
    in a word: [*], [?], [[] and []] with [^] and [!] (patterns, section
    2.13, and so pathname expansion), [~] (tilde expansion), [#]
    (comment), [{] and [}] (brace group, and brace expansion in the
    shells that have it).  The remaining ones of that section, [-], [=],
    [%] and [,], have a meaning only inside a construct that one of the
    former opens, or, for [=], in a word that stands where a command
    name is expected. *)
Definition is_special (c : ascii) : bool :=
  is_blank c || is_operator c
  || PyStr.contains c "$`\'" || Ascii.eqb c shlex.dquote
  || PyStr.contains c "*?[]^!~#{}".

Definition is_name_start (c : ascii) : bool :=
  let n := nat_of_ascii c in
  Nat.leb 65 n && Nat.leb n 90 || Nat.leb 97 n && Nat.leb n 122 || Ascii.eqb c "_".

Definition is_name_char (c : ascii) : bool :=
  let n := nat_of_ascii c in
  is_name_start c || Nat.leb 48 n && Nat.leb n 57.

Definition word_of (cur : option (list seg)) : list seg :=
  match cur with Some w => w | None => [] end.

Definition push (cur : option (list seg)) (x : seg) : option (list seg) :=
  Some (word_of cur ++ [x]).

Definition flush (cur : option (list seg)) (out : list token) : list token :=
  match cur with Some w => Word w :: out | None => out end.

Definition snoc (s : string) (c : ascii) : string := s +:+ String c "".

(** A character read outside quotes. *)
Definition step_unquoted (cur : option (list seg)) (out : list token) (c : ascii)
    : option lstate :=
  if is_blank c then Some (mkL Unquoted None (flush cur out))
  else if is_operator c then Some (mkL Unquoted None (Op c :: flush cur out))
  else if Ascii.eqb c "'" then Some (mkL Single (Some (word_of cur)) out)
  else if Ascii.eqb c shlex.dquote then Some (mkL Double (Some (word_of cur)) out)
  else if Ascii.eqb c "$" then Some (mkL Dollar cur out)
  else if Ascii.eqb c "\" || Ascii.eqb c "`" then None
  else if Ascii.eqb c "#" && negb (bool_decide (is_Some cur)) then None
  else Some (mkL Unquoted (push cur (U c)) out).

Definition step (st : lstate) (c : ascii) : option lstate :=
  match l_mode st with
  | Unquoted => step_unquoted (l_cur st) (l_out st) c
  | Single =>
      if Ascii.eqb c "'" then Some (mkL Unquoted (l_cur st) (l_out st))
      else Some (mkL Single (push (l_cur st) (Q c)) (l_out st))
  | Double =>
      if Ascii.eqb c shlex.dquote then Some (mkL Unquoted (l_cur st) (l_out st))
      else if Ascii.eqb c "$" || Ascii.eqb c "\" || Ascii.eqb c "`" then None
      else Some (mkL Double (push (l_cur st) (Q c)) (l_out st))
  | Dollar =>
      if Ascii.eqb c "(" then Some (mkL (Subst 0 "") (l_cur st) (l_out st))
      else if is_name_start c then Some (mkL (PName (String c "")) (l_cur st) (l_out st))
      else None
  | PName acc =>
      if is_name_char c then Some (mkL (PName (snoc acc c)) (l_cur st) (l_out st))
      else step_unquoted (push (l_cur st) (Param acc)) (l_out st) c
  | Subst depth acc =>
      if Ascii.eqb c ")" then
        match depth with
        | O => Some (mkL Unquoted (push (l_cur st) (CmdSubst acc)) (l_out st))
        | S d => Some (mkL (Subst d (snoc acc c)) (l_cur st) (l_out st))
        end
      else if Ascii.eqb c "(" then Some (mkL (Subst (S depth) (snoc acc c)) (l_cur st) (l_out st))
      else if Ascii.eqb c "'" || Ascii.eqb c shlex.dquote || Ascii.eqb c "\" || Ascii.eqb c "`"
      then None
      else Some (mkL (Subst depth (snoc acc c)) (l_cur st) (l_out st))
  end.

Fixpoint run (st : lstate) (s : string) : option lstate :=
  match s with
  | EmptyString => Some st
  | String c s' =>
      match step st c with
      | Some st' => run st' s'
      | None => None
      end
  end.

(** The end of the input ends the last word; an open quote or
    substitution is an error. *)
Definition finish (st : lstate) : option (list token) :=
  match l_mode st with
  | Unquoted => Some (List.rev (flush (l_cur st) (l_out st)))
  | PName acc => Some (List.rev (flush (push (l_cur st) (Param acc)) (l_out st)))
  | _ => None
  end.

Definition start : lstate := mkL Unquoted None [].

(** The tokens of a command string, before the words are looked at. *)
Definition tokens (s : string) : option (list token) :=
  match run start s with
  | Some st => finish st
  | None => None
  end.

(** A piece of a word that starts no expansion of the word as a whole:
    anything but an unquoted special character. *)
Definition plain (x : seg) : bool :=
  match x with
  | U c => negb (is_special c)
  | Q _ | Param _ | CmdSubst _ => true
  end.

(** The words of the fragment: those without an unquoted special
    character, and the two words [[] and []], which are no pattern and
    stand for themselves. *)
Definition in_fragment (t : token) : bool :=
  match t with
  | Word w => bool_decide (w = [U "["]) || bool_decide (w = [U "]"]) || List.forallb plain w
  | Op _ => true
  end.

Definition lex (s : string) : option (list token) :=
  match tokens s with
  | Some ts => if List.forallb in_fragment ts then Some ts else None
  | None => None
  end.

Definition chars (s : string) : list ascii := list_ascii_of_string s.

(** The word a keyword or option of the command text reads as. *)
Definition raw (s : string) : list seg := List.map U (chars s).

(** The pieces that the characters of [s] read as when [s] went through
    [shlex.quote]: quoted when it was wrapped, unquoted when it was left
    as it is. *)
Definition arg (s : string) : list seg :=
  if String.eqb s "" || shlex.find_unsafe s then List.map Q (chars s)
  else List.map U (chars s).

(** A piece the shell takes literally: a quoted character, or an
    unquoted character that is not special to the shell. *)
Definition inert (x : seg) : bool :=
  match x with
  | Q _ => true
  | U c => negb (is_special c)
  | Param _ | CmdSubst _ => false
  end.

(** The text of a word of the fragment after expansion, given the values
    of the parameters and the output of the substituted commands. *)
Fixpoint expand (var sub : string → string) (w : list seg) : string :=
  match w with
  | [] => ""
  | Q c :: w' | U c :: w' => String c (expand var sub w')
  | Param n :: w' => var n +:+ expand var sub w'
  | CmdSubst b :: w' => sub b +:+ expand var sub w'
  end.

(** *** Commands and their execution under [set -e]

    The tokens of a command string form a list of commands separated by
    [;]: simple commands, and [if list; then list; fi] (not nested).
    The shell runs them in order.  Once [set] has switched on the
    [errexit] option, a simple command that fails ends the shell, unless
    it is part of the list between [if] and [then].  [set] is a special
    built-in utility: when it fails, as it does in a shell that does not
    know one of the options it is given, the shell exits whatever its
    options are (section 2.8.1). *)

#[warnings="-register-all"]
Inductive cmd : Type :=
| Simple (words : list (list seg))
| If (cond body : list cmd).

Inductive pmode : Type := Top | Cond | Body.

Record pstate : Type := mkP {
  p_mode : pmode;
  p_cur : list (list seg);    (* the words of the simple command being read *)
  p_cond : list cmd;          (* the list after [if] *)
  p_body : list cmd;          (* the list after [then] *)
  p_out : list cmd;           (* the commands read at top level *)
  p_closed : bool             (* a [fi] was just read *)
}.

(** A simple command is complete. *)
Definition emit (st : pstate) (c : cmd) : pstate :=
  match p_mode st with
  | Top => mkP Top [] (p_cond st) (p_body st) (p_out st ++ [c]) false
  | Cond => mkP Cond [] (p_cond st ++ [c]) (p_body st) (p_out st) false
  | Body => mkP Body [] (p_cond st) (p_body st ++ [c]) (p_out st) false
  end.

(** The first word of a command, where the reserved words are
    recognised. *)
Definition first_word (st : pstate) (w : list seg) : option pstate :=
  if bool_decide (w = raw "if") then
    match p_mode st with
    | Top => Some (mkP Cond [] [] [] (p_out st) false)
    | _ => None
    end
  else if bool_decide (w = raw "then") then
    match p_mode st, p_cond st with
    | Cond, _ :: _ => Some (mkP Body [] (p_cond st) [] (p_out st) false)
    | _, _ => None
    end
  else if bool_decide (w = raw "fi") then
    match p_mode st, p_body st with
    | Body, _ :: _ =>
        Some (mkP Top [] [] [] (p_out st ++ [If (p_cond st) (p_body st)]) true)
    | _, _ => None
    end
  else Some (mkP (p_mode st) [w] (p_cond st) (p_body st) (p_out st) false).

Definition parse_step (st : pstate) (t : token) : option pstate :=
  match t with
  | Word w =>
      match p_cur st with
      | [] => if p_closed st then None else first_word st w
      | ws => Some (mkP (p_mode st) (ws ++ [w]) (p_cond st) (p_body st) (p_out st) false)
      end
  | Op c =>
      if Ascii.eqb c ";" then
        match p_cur st with
        | [] =>
            if p_closed st
            then Some (mkP (p_mode st) [] (p_cond st) (p_body st) (p_out st) false)
            else None
        | ws => Some (emit st (Simple ws))
        end
      else None
  end.

Fixpoint parse_from (st : pstate) (ts : list token) : option pstate :=
  match ts with
  | [] => Some st
  | t :: ts' =>
      match parse_step st t with
      | Some st' => parse_from st' ts'
      | None => None
      end
  end.

Definition parse (ts : list token) : option (list cmd) :=
  match parse_from (mkP Top [] [] [] [] false) ts with
  | Some st =>
      match p_mode st, p_cur st with
      | Top, [] => Some (p_out st)
      | Top, ws => Some (p_out st ++ [Simple ws])
      | _, _ => None
      end
  | None => None
  end.

Record xstate : Type := mkX {
  x_errexit : bool;                    (* the [-e] option *)
  x_ok : bool;                         (* the last command succeeded *)
  x_ended : bool;                      (* the shell has exited *)
  x_trace : list (list (list seg))     (* the simple commands run, in order *)
}.

(** [set -e...]: the second word is a group of option letters with [e]. *)
Definition sets_errexit (ws : list (list seg)) : bool :=
  match ws with
  | w :: rest =>
      if bool_decide (w = raw "set") then
        match rest with
        | (U "-" :: flags) :: _ => bool_decide (U "e" ∈ flags)
        | _ => false
        end
      else false
  | [] => false
  end.

(** The command is a call of [set]. *)
Definition is_set (ws : list (list seg)) : bool :=
  match ws with
  | w :: _ => bool_decide (w = raw "set")
  | [] => false
  end.

Definition exec_simple (fails : list (list seg) → bool) (in_cond : bool)
    (ws : list (list seg)) (st : xstate) : xstate :=
  if is_set ws then
    if fails ws then mkX (x_errexit st) false true (x_trace st ++ [ws])
    else mkX (x_errexit st || sets_errexit ws) true false (x_trace st ++ [ws])
  else mkX (x_errexit st) (negb (fails ws))
           (fails ws && x_errexit st && negb in_cond)
           (x_trace st ++ [ws]).

Fixpoint exec_seq {C : Type} (exec1 : C → bool → xstate → xstate)
    (cs : list C) (in_cond : bool) (st : xstate) : xstate :=
  match cs with
  | [] => st
  | c :: cs' =>
      let st' := exec1 c in_cond st in
      if x_ended st' then st' else exec_seq exec1 cs' in_cond st'
  end.

Fixpoint exec (fails : list (list seg) → bool) (c : cmd) (in_cond : bool)
    (st : xstate) : xstate :=
  match c with
  | Simple ws => exec_simple fails in_cond ws st
  | If cond body =>
      let st1 := exec_seq (exec fails) cond true st in
      if x_ended st1 then st1
      else if x_ok st1 then exec_seq (exec fails) body in_cond st1
      else mkX (x_errexit st1) true false (x_trace st1)
  end.

(** The simple commands a shell runs for a command string, when [fails]
    tells which of them fail. *)
Definition trace (fails : list (list seg) → bool) (command : string)
    : option (list (list (list seg))) :=
  match lex command with
  | Some ts =>
      match parse ts with
      | Some script => Some (x_trace (exec_seq (exec fails) script false (mkX false true false [])))
      | None => None
      end
  | None => None
  end.

End Sh.

(** ** The remote [date] utility *)

Module Date.

Record tm : Type := mkTm {
  year : N; month : N; day : N; hour : N; minute : N; second : N
}.








(** Chronological order: the fields compared from the year down. *)
Definition key (t : tm) : list N :=
  [year t; month t; day t; hour t; minute t; second t].

Fixpoint before_key (a b : list N) : bool :=
  match a, b with
  | x :: a', y :: b' => N.ltb x y || N.eqb x y && before_key a' b'
  | _, _ => false
  end.

Definition before (t1 t2 : tm) : bool := before_key (key t1) (key t2).



End Date.

(** ** What the specification speaks of *)

(** The filter, read from the specification: the path is split on the
    directory separator; an entry is excluded when a component is an
    excluded name, or when its final name component (the last component
    that names something: not empty and not the current-directory dot)
    ends with an excluded suffix. *)
Definition spec_components (name : string) : list string :=
  PyStr.split PyStr.slash name.

Definition spec_final_name (name : string) : string :=
  List.last (List.filter PurePath.keep_part (spec_components name)) "".

Definition spec_excluded (name : string) : Prop :=
  (∃ part, part ∈ spec_components name ∧ part ∈ IGNORE_NAMES)
  ∨ (∃ suffix, suffix ∈ IGNORE_SUFFIXES ∧ ∃ pre, spec_final_name name = pre +:+ suffix).

(** A name a directory entry can have. *)
Definition valid_name (f : string) : bool :=
  negb (String.eqb f "") && negb (PyStr.contains PyStr.slash f).

(** A tree whose entries all have such names. *)
Fixpoint wf (n : node) : bool :=
  match n with
  | File _ => true
  | Dir entries =>
      List.forallb (λ e, match e with (f, c) => valid_name f && wf c end) entries
  end.

(** The members of the archive [build_archive] leaves behind. *)
Definition archive_members (env : Env) (source : PurePath.t) (s : State) : option (list TarInfo) :=
  st_tmp (build_archive env source s).2 !! file_of (env_tmp_name env).

(** The two external commands of [deploy], in the order it runs them. *)
Definition scp_call (host : string) (remote_path archive_path : PurePath.t) : list string :=
  ["scp"; PurePath.to_str archive_path; host +:+ ":" +:+ remote_tmp remote_path].

Definition ssh_call (host : string) (remote_path : PurePath.t) (skip_backup : bool) : list string :=
  ["ssh"; host; remote_cmd remote_path skip_backup].

(** The tokens of the remote command: keywords and options as written,
    and one word for each interpolated value. *)
Definition kw (s : string) : Sh.token := Sh.Word (Sh.raw s).

Definition semi : Sh.token := Sh.Op ";".

Definition date_format : string := "%Y%m%d%H%M%S".

Definition backup_file (name : string) : list Sh.seg :=
  Sh.arg name ++ Sh.raw "-backup-" ++ [Sh.Param "TS"] ++ Sh.raw ".tar.gz".

Definition backup_tokens (name : string) : list Sh.token :=
  [kw "if"; kw "["; kw "-d"; Sh.Word (Sh.arg name); kw "]"; semi;
   kw "then"; Sh.Word (Sh.raw "TS=" ++ [Sh.CmdSubst ("date +" +:+ date_format)]); semi;
   kw "tar"; kw "czf"; Sh.Word (backup_file name); Sh.Word (Sh.arg name); semi;
   kw "fi"; semi].

Definition prepare_tokens (base : string) : list Sh.token :=
  [kw "set"; kw "-euo"; kw "pipefail"; semi;
   kw "mkdir"; kw "-p"; Sh.Word (Sh.arg base); semi;
   kw "cd"; Sh.Word (Sh.arg base); semi].

Definition replace_tokens (base name tmp : string) : list Sh.token :=
  [kw "rm"; kw "-rf"; Sh.Word (Sh.arg name); semi;
   kw "tar"; kw "xzf"; Sh.Word (Sh.arg tmp); kw "-C"; Sh.Word (Sh.arg base); semi;
   kw "rm"; kw "-f"; Sh.Word (Sh.arg tmp)].

Definition remote_tokens (remote_path : PurePath.t) (skip_backup : bool) : list Sh.token :=
  prepare_tokens (remote_base remote_path)
  ++ (if skip_backup then [] else backup_tokens (PurePath.name remote_path))
  ++ replace_tokens (remote_base remote_path) (PurePath.name remote_path)
                    (remote_tmp remote_path).


(** A reading the specification gives and the code does not follow: the
    destination handed to the copy tool is shell-quoted. *)
Definition scp_destination_quoted (host : string) (remote_path archive_path : PurePath.t) : Prop :=
  List.last (scp_call host remote_path archive_path) ""
  = host +:+ ":" +:+ shlex.quote (remote_tmp remote_path).


(** The simple commands of the remote command. *)
Definition set_step : list (list Sh.seg) :=
  [Sh.raw "set"; Sh.raw "-euo"; Sh.raw "pipefail"].

Definition mkdir_step (base : string) : list (list Sh.seg) :=
  [Sh.raw "mkdir"; Sh.raw "-p"; Sh.arg base].

Definition cd_step (base : string) : list (list Sh.seg) :=
  [Sh.raw "cd"; Sh.arg base].

Definition test_step (name : string) : list (list Sh.seg) :=
  [Sh.raw "["; Sh.raw "-d"; Sh.arg name; Sh.raw "]"].

Definition stamp_step : list (list Sh.seg) :=
  [Sh.raw "TS=" ++ [Sh.CmdSubst ("date +" +:+ date_format)]].

Definition backup_step_words (name : string) : list (list Sh.seg) :=
  [Sh.raw "tar"; Sh.raw "czf"; backup_file name; Sh.arg name].

Definition remove_step (name : string) : list (list Sh.seg) :=
  [Sh.raw "rm"; Sh.raw "-rf"; Sh.arg name].

Definition extract_step (base tmp : string) : list (list Sh.seg) :=
  [Sh.raw "tar"; Sh.raw "xzf"; Sh.arg tmp; Sh.raw "-C"; Sh.arg base].

Definition cleanup_step (tmp : string) : list (list Sh.seg) :=
  [Sh.raw "rm"; Sh.raw "-f"; Sh.arg tmp].

(** The steps that change the target, in the order of the command. *)
Definition remote_steps (remote_path : PurePath.t) (skip_backup : bool)
    : list (list (list Sh.seg)) :=
  [mkdir_step (remote_base remote_path); cd_step (remote_base remote_path)]
  ++ (if skip_backup then []
      else [stamp_step; backup_step_words (PurePath.name remote_path)])
  ++ [remove_step (PurePath.name remote_path);
      extract_step (remote_base remote_path) (remote_tmp remote_path);
      cleanup_step (remote_tmp remote_path)].

(** The command as the remote shell parses it. *)
Definition remote_script (remote_path : PurePath.t) (skip_backup : bool) : list Sh.cmd :=
  [Sh.Simple set_step;
   Sh.Simple (mkdir_step (remote_base remote_path));
   Sh.Simple (cd_step (remote_base remote_path))]
  ++ (if skip_backup then []
      else [Sh.If [Sh.Simple (test_step (PurePath.name remote_path))]
                  [Sh.Simple stamp_step;
                   Sh.Simple (backup_step_words (PurePath.name remote_path))]])
  ++ [Sh.Simple (remove_step (PurePath.name remote_path));
      Sh.Simple (extract_step (remote_base remote_path) (remote_tmp remote_path));
      Sh.Simple (cleanup_step (remote_tmp remote_path))].

(** Every simple command of the remote command, in order; the test and
    the backup are there without the skip option. *)
Definition remote_commands (remote_path : PurePath.t) (skip_backup : bool)
    : list (list (list Sh.seg)) :=
  [set_step; mkdir_step (remote_base remote_path); cd_step (remote_base remote_path)]
  ++ (if skip_backup then []
      else [test_step (PurePath.name remote_path); stamp_step;
            backup_step_words (PurePath.name remote_path)])
  ++ [remove_step (PurePath.name remote_path);
      extract_step (remote_base remote_path) (remote_tmp remote_path);
      cleanup_step (remote_tmp remote_path)].

(** In the trace [tr] nothing runs after one of [steps] failed. *)
Definition fail_fast (fails : list (list Sh.seg) → bool)
    (steps tr : list (list (list Sh.seg))) : Prop :=
  ∀ x before after,
    x ∈ steps → fails x = true → tr = before ++ x :: after → after = [].

(** The target device as the remote shell meets it when nothing goes
    wrong there: every command succeeds, except that the test
    [[ -d name ]] fails when the remote path is not a directory on the
    device. *)
Definition device (env : Env) (remote : string) : list (list Sh.seg) → bool :=
  λ ws, bool_decide (ws = test_step (PurePath.name (Path remote)))
        && negb (env_remote_is_dir env remote).

(** ** Machines to run the tool on *)

Definition tools_present (cmd : string) : option string := Some ("/usr/bin/" +:+ cmd).

Definition scp_missing (cmd : string) : option string :=
  if String.eqb cmd "scp" then None else Some ("/usr/bin/" +:+ cmd).

(** [/home] holds a project with version-control metadata and compiled
    bytecode, a virtual environment, and a directory with a file that
    cannot be read. *)
Definition home_tree : node :=
  Dir [("home",
        Dir [("proj", Dir [("app.pyc", File true);
                           ("app.py", File true);
                           (".git", Dir [("config", File true)])]);
             ("venv", Dir [("main.py", File true)]);
             ("locked", Dir [("a.py", File true); ("secret.key", File false)])]);
       ("tmp", Dir [])].

(** Every external command succeeds; the target has no directories yet. *)
Definition machine : Env :=
  mkEnv tools_present ["home"] home_tree "/tmp/tmpk3v9.tar.gz" (λ _, 0%Z) (λ _, false).

Definition machine_without_scp : Env :=
  mkEnv scp_missing ["home"] home_tree "/tmp/tmpk3v9.tar.gz" (λ _, 0%Z) (λ _, false).


Definition proj_args : Args := mkArgs DEFAULT_HOST DEFAULT_REMOTE_PATH "proj" false.

(** ** Further notions: archive names, runs *)

(** The archive name [add] reaches from [arcname] along the entries
    [ps]: one [os.path.join] per level. *)
Definition descend (arcname : string) (ps : list string) : string :=
  fold_left path_join ps arcname.

(** The commands of a list that run when the shell stops at the first
    one that fails. *)
Fixpoint until_failure (fails : list (list Sh.seg) → bool)
    (steps : list (list (list Sh.seg))) : list (list (list Sh.seg)) :=
  match steps with
  | [] => []
  | x :: rest => x :: (if fails x then [] else until_failure fails rest)
  end.

(** The run of the remote command the code composes, read off its text:
    [set], and when [set] did not fail the steps up to the first that
    fails; the test of the [if] does not end the run, it decides whether
    the two commands of the branch are among the steps. *)
Definition expected_run (fails : list (list Sh.seg) → bool)
    (remote_path : PurePath.t) (skip_backup : bool) : list (list (list Sh.seg)) :=
  let base := remote_base remote_path in
  let name := PurePath.name remote_path in
  let replace := [remove_step name; extract_step base (remote_tmp remote_path);
                  cleanup_step (remote_tmp remote_path)] in
  set_step ::
  (if fails set_step then []
   else if skip_backup
        then until_failure fails ([mkdir_step base; cd_step base] ++ replace)
   else if fails (mkdir_step base) || fails (cd_step base)
        then until_failure fails [mkdir_step base; cd_step base]
        else [mkdir_step base; cd_step base; test_step name]
             ++ until_failure fails
                  ((if fails (test_step name) then []
                    else [stamp_step; backup_step_words name]) ++ replace)).

(** A machine on which the copy to the target fails. *)
Definition machine_upload_fails : Env :=
  mkEnv tools_present ["home"] home_tree "/tmp/tmpk3v9.tar.gz"
        (λ cmd, match cmd with
                | c :: _ => if String.eqb c "scp" then 1%Z else 0%Z
                | [] => 0%Z
                end)
        (λ _, false).
(** ** Facts about the string operations *)

Section StrFacts.

Lemma str_app_cons a s t : String a s +:+ t = String a (s +:+ t).
Proof. reflexivity. Qed.

Lemma str_app_nil_l s : "" +:+ s = s.
Proof. reflexivity. Qed.

Lemma str_app_nil_r s : s +:+ "" = s.
Proof. induction s as [|a s IH]; [done|]. by rewrite str_app_cons, IH. Qed.

Lemma str_app_assoc s t u : (s +:+ t) +:+ u = s +:+ t +:+ u.
Proof. induction s as [|a s IH]; [done|]. by rewrite !str_app_cons, IH. Qed.

Lemma str_length_app s t :
  String.length (s +:+ t) = String.length s + String.length t.
Proof. induction s as [|a s IH]; [done|]. rewrite str_app_cons. simpl. by rewrite IH. Qed.

Lemma drop_app_length p s : PyStr.drop (String.length p) (p +:+ s) = s.
Proof. induction p as [|a p IH]; [by destruct s|]. by rewrite str_app_cons. Qed.

Lemma drop_split n s : ∃ p, s = p +:+ PyStr.drop n s.
Proof.
  revert s. induction n as [|n IH]; intros s.
  - exists "". by destruct s.
  - destruct s as [|a s]; [by exists ""|].
    destruct (IH s) as [p Hp]. exists (String a p).
    rewrite str_app_cons. simpl. by rewrite <- Hp.
Qed.

(** [endswith] decides "is a suffix of". *)
Lemma endswith_spec s suf :
  PyStr.endswith s suf = true ↔ ∃ pre, s = pre +:+ suf.
Proof.
  unfold PyStr.endswith. rewrite andb_true_iff, Nat.leb_le, String.eqb_eq. split.
  - intros [_ Hd]. destruct (drop_split (String.length s - String.length suf) s) as [p Hp].
    exists p. by rewrite <- Hd.
  - intros [pre ->]. rewrite str_length_app. split; [lia|].
    replace (String.length pre + String.length suf - String.length suf)
      with (String.length pre) by lia.
    apply drop_app_length.
Qed.

Lemma split_not_nil sep s : PyStr.split sep s ≠ [].
Proof.
  destruct s as [|c s]; simpl; [done|].
  destruct (Ascii.eqb c sep); [done|]. by destruct (PyStr.split sep s).
Qed.


End StrFacts.


Section FilterFacts.

Lemma ignore_names_keep part : part ∈ IGNORE_NAMES → PurePath.keep_part part = true.
Proof.
  unfold IGNORE_NAMES. rewrite !elem_of_union, !elem_of_singleton.
  intros H. repeat destruct H as [H|H]; by subst.
Qed.

Lemma splitroot_cases p :
  let '(r, rel) := PurePath.splitroot p in
  (r = "" ∨ r = "/" ∨ r = "//")
  ∧ List.filter PurePath.keep_part (PyStr.split PyStr.slash rel)
    = List.filter PurePath.keep_part (PyStr.split PyStr.slash p).
Proof.
  destruct p as [|a p]; [by split; [left|]|].
  destruct (ascii_dec a "/") as [->|Ha].
  - destruct p as [|b p]; [by split; [right; left|]|].
    destruct (ascii_dec b "/") as [->|Hb].
    + destruct p as [|c p]; [by split; [right; right|]|].
      destruct (ascii_dec c "/") as [->|Hc].
      * by split; [right; left|].
      * assert (PurePath.splitroot (String "/" (String "/" (String c p)))
                = ("//", String c p)) as ->; [|by split; [right; right|]].
        destruct c as [[] [] [] [] [] [] [] []]; try reflexivity. by destruct Hc.
    + assert (PurePath.splitroot (String "/" (String b p)) = ("/", String b p)) as ->;
        [|by split; [right; left|]].
      destruct b as [[] [] [] [] [] [] [] []]; try reflexivity. by destruct Hb.
  - assert (PurePath.splitroot (String a p) = ("", String a p)) as ->; [|by split; [left|]].
    destruct a as [[] [] [] [] [] [] [] []]; try reflexivity. by destruct Ha.
Qed.

(** The components [pathlib] keeps are the named components of the split. *)
Lemma parse_tail s :
  PurePath.tail (Path s) = List.filter PurePath.keep_part (spec_components s).
Proof.
  unfold Path, PurePath.parse, spec_components.
  pose proof (splitroot_cases s) as H. destruct (PurePath.splitroot s) as [r rel].
  simpl. apply H.
Qed.

Lemma parse_root s :
  PurePath.root (Path s) = "" ∨ PurePath.root (Path s) = "/" ∨ PurePath.root (Path s) = "//".
Proof.
  unfold Path, PurePath.parse.
  pose proof (splitroot_cases s) as H. destruct (PurePath.splitroot s) as [r rel].
  simpl. apply H.
Qed.

Lemma name_final s : PurePath.name (Path s) = spec_final_name s.
Proof. unfold PurePath.name, spec_final_name. by rewrite parse_tail. Qed.

Lemma parts_ignored s part :
  part ∈ IGNORE_NAMES →
  part ∈ PurePath.parts (Path s) ↔ part ∈ spec_components s.
Proof.
  intros Hin. pose proof (ignore_names_keep _ Hin) as Hk.
  unfold PurePath.parts. rewrite parse_tail.
  assert (part ∈ List.filter PurePath.keep_part (spec_components s)
          ↔ part ∈ spec_components s) as Hf.
  { rewrite !list_elem_of_In, filter_In. tauto. }
  destruct (parse_root s) as [-> | [-> | ->]]; simpl; [done| |];
    rewrite elem_of_cons, Hf; (split; [intros [->|?]; [done|done] | by right]).
Qed.

Lemma any_true {A} (p : A → bool) xs : any p xs = true ↔ ∃ x, x ∈ xs ∧ p x = true.
Proof.
  unfold any. rewrite existsb_exists.
  split; intros [x [? ?]]; exists x; by rewrite ?list_elem_of_In in *.
Qed.

Lemma tar_filter_none ti : tar_filter ti = None ↔ spec_excluded (ti_name ti).
Proof.
  unfold tar_filter, spec_excluded.
  destruct (any _ (PurePath.parts _)) eqn:Hn.
  - split; [intros _|done]. left.
    apply any_true in Hn as (part & Hp & Hi). apply bool_decide_eq_true in Hi.
    exists part. split; [|done]. by apply parts_ignored.
  - destruct (any _ (elements _)) eqn:Hs.
    + split; [intros _|done]. right.
      apply any_true in Hs as (suf & Hsuf & He).
      exists suf. rewrite elem_of_elements in Hsuf. split; [done|].
      rewrite <- name_final. by apply endswith_spec.
    + split; [done|]. intros [(part & Hp & Hi) | (suf & Hsuf & He)]; exfalso.
      * apply not_true_iff_false in Hn. apply Hn, any_true.
        exists part. split; [by apply parts_ignored|]. by apply bool_decide_eq_true.
      * apply not_true_iff_false in Hs. apply Hs, any_true.
        exists suf. rewrite elem_of_elements. split; [done|].
        rewrite <- name_final in He. by apply endswith_spec.
Qed.

Lemma tar_filter_cases ti : tar_filter ti = None ∨ tar_filter ti = Some ti.
Proof. unfold tar_filter. repeat case_match; auto. Qed.

End FilterFacts.


(** ** The shell reads a quoted value as one literal piece of a word *)

Section LexFacts.

#[local] Arguments shlex.quote : simpl never.
#[local] Arguments Sh.arg : simpl never.

Lemma run_app st s t :
  Sh.run st (s +:+ t) = match Sh.run st s with Some st' => Sh.run st' t | None => None end.
Proof.
  revert st. induction s as [|c s IH]; intros st; [done|].
  rewrite str_app_cons. simpl. destruct (Sh.step st c); [apply IH|done].
Qed.

Lemma safe_step cur out c :
  shlex.is_safe c = true →
  Sh.step_unquoted cur out c = Some (Sh.mkL Sh.Unquoted (Sh.push cur (Sh.U c)) out).
Proof.
  destruct c as [[] [] [] [] [] [] [] []]; intros H; try discriminate H; reflexivity.
Qed.

Lemma run_safe s w out :
  shlex.find_unsafe s = false →
  Sh.run (Sh.mkL Sh.Unquoted (Some w) out) s
  = Some (Sh.mkL Sh.Unquoted (Some (w ++ List.map Sh.U (Sh.chars s))) out).
Proof.
  revert w. induction s as [|c s IH]; intros w H; simpl.
  - by rewrite app_nil_r.
  - simpl in H. apply orb_false_iff in H as [Hc Hs]. apply negb_false_iff in Hc.
    unfold Sh.step. simpl. rewrite (safe_step _ _ _ Hc). unfold Sh.push. simpl.
    rewrite (IH _ Hs). by rewrite <- app_assoc.
Qed.

Lemma run_single s w out t :
  Sh.run (Sh.mkL Sh.Single (Some w) out) (PyStr.replace "'" shlex.escaped_quote s +:+ t)
  = Sh.run (Sh.mkL Sh.Single (Some (w ++ List.map Sh.Q (Sh.chars s))) out) t.
Proof.
  revert w. induction s as [|c s IH]; intros w; simpl.
  - by rewrite app_nil_r.
  - destruct (Ascii.eqb c "'") eqn:Hc.
    + apply Ascii.eqb_eq in Hc as ->. rewrite str_app_assoc.
      unfold shlex.escaped_quote at 1. rewrite !str_app_cons. simpl.
      rewrite IH. by rewrite <- app_assoc.
    + rewrite str_app_cons. simpl. unfold Sh.step. simpl. rewrite Hc.
      unfold Sh.push. simpl. rewrite IH. by rewrite <- app_assoc.
Qed.

(** Wherever a word stands, [shlex.quote s] adds the characters of [s]
    to it, and nothing else happens. *)
Lemma run_quote s cur out :
  Sh.run (Sh.mkL Sh.Unquoted cur out) (shlex.quote s)
  = Some (Sh.mkL Sh.Unquoted (Some (Sh.word_of cur ++ Sh.arg s)) out).
Proof.
  unfold shlex.quote, Sh.arg. destruct (String.eqb_spec s "") as [->|Hne].
  - simpl. by rewrite app_nil_r.
  - simpl. destruct (shlex.find_unsafe s) eqn:Hu; simpl.
    + rewrite str_app_nil_l, run_single. done.
    + destruct s as [|c s]; [done|]. simpl in Hu.
      apply orb_false_iff in Hu as [Hc Hs]. apply negb_false_iff in Hc.
      simpl. unfold Sh.step. simpl. rewrite (safe_step _ _ _ Hc). unfold Sh.push.
      rewrite (run_safe _ _ _ Hs). by rewrite <- app_assoc.
Qed.

(** No character that [shlex.quote] leaves unquoted is special to the
    shell. *)
Lemma safe_not_special c : shlex.is_safe c = true → Sh.is_special c = false.
Proof.
  destruct c as [[] [] [] [] [] [] [] []]; intros H; try discriminate H; reflexivity.
Qed.

Lemma arg_inert s : List.forallb Sh.inert (Sh.arg s) = true.
Proof.
  unfold Sh.arg. destruct (String.eqb s "" || shlex.find_unsafe s) eqn:H.
  - induction (Sh.chars s); simpl; auto.
  - apply orb_false_iff in H as [_ H]. induction s as [|c s IH]; [done|].
    simpl in *. apply orb_false_iff in H as [Hc Hs]. apply negb_false_iff in Hc.
    by rewrite (safe_not_special _ Hc), IH.
Qed.

Lemma inert_plain x : Sh.inert x = true → Sh.plain x = true.
Proof. by destruct x. Qed.

Lemma arg_plain s : List.forallb Sh.plain (Sh.arg s) = true.
Proof.
  pose proof (arg_inert s) as H. rewrite forallb_forall in *.
  intros x Hx. by apply inert_plain, H.
Qed.

Lemma fragment_word w : List.forallb Sh.plain w = true → Sh.in_fragment (Sh.Word w) = true.
Proof. intros H. simpl. rewrite H. apply orb_true_r. Qed.


Lemma expand_chars var sub (f : ascii → Sh.seg) s :
  (f = Sh.Q ∨ f = Sh.U) →
  Sh.expand var sub (List.map f (Sh.chars s)) = s.
Proof. intros Hf. induction s as [|c s IH]; [done|]. destruct Hf as [-> | ->]; simpl; by f_equal; apply IH; auto. Qed.

Lemma expand_arg var sub s : Sh.expand var sub (Sh.arg s) = s.
Proof. unfold Sh.arg. destruct (_ || _); apply expand_chars; auto. Qed.


(** The tokens of the command, for any three interpolated values. *)
Lemma tokens_template (qb qn qt : string) (ab an at' : list Sh.seg) (skip_backup : bool) :
  (∀ cur out, Sh.run (Sh.mkL Sh.Unquoted cur out) qb
              = Some (Sh.mkL Sh.Unquoted (Some (Sh.word_of cur ++ ab)) out)) →
  (∀ cur out, Sh.run (Sh.mkL Sh.Unquoted cur out) qn
              = Some (Sh.mkL Sh.Unquoted (Some (Sh.word_of cur ++ an)) out)) →
  (∀ cur out, Sh.run (Sh.mkL Sh.Unquoted cur out) qt
              = Some (Sh.mkL Sh.Unquoted (Some (Sh.word_of cur ++ at')) out)) →
  Sh.tokens ("set -euo pipefail; "
          +:+ "mkdir -p " +:+ qb +:+ "; "
          +:+ "cd " +:+ qb +:+ "; "
          +:+ (if negb skip_backup then
                 "if [ -d " +:+ qn +:+ " ]; then "
                 +:+ "TS=$(date +%Y%m%d%H%M%S); "
                 +:+ "tar czf " +:+ qn +:+ "-backup-$TS.tar.gz "
                 +:+ qn +:+ "; "
                 +:+ "fi;"
               else "")
          +:+ "rm -rf " +:+ qn +:+ "; "
          +:+ "tar xzf " +:+ qt
          +:+ " -C " +:+ qb +:+ "; "
          +:+ "rm -f " +:+ qt)
  = Some ([kw "set"; kw "-euo"; kw "pipefail"; semi;
           kw "mkdir"; kw "-p"; Sh.Word ab; semi; kw "cd"; Sh.Word ab; semi]
          ++ (if skip_backup then []
              else [kw "if"; kw "["; kw "-d"; Sh.Word an; kw "]"; semi; kw "then";
                    Sh.Word (Sh.raw "TS=" ++ [Sh.CmdSubst ("date +" +:+ date_format)]); semi;
                    kw "tar"; kw "czf";
                    Sh.Word (an ++ Sh.raw "-backup-" ++ [Sh.Param "TS"] ++ Sh.raw ".tar.gz");
                    Sh.Word an; semi; kw "fi"; semi])
          ++ [kw "rm"; kw "-rf"; Sh.Word an; semi;
              kw "tar"; kw "xzf"; Sh.Word at'; kw "-C"; Sh.Word ab; semi;
              kw "rm"; kw "-f"; Sh.Word at']).
Proof.
  intros Hb Hn Ht. unfold Sh.tokens.
  destruct skip_backup; simpl negb; cbv iota; rewrite ?str_app_nil_l, ?str_app_assoc;
    repeat (rewrite run_app;
            first [ rewrite Hb | rewrite Hn | rewrite Ht
                  | lazymatch goal with
                    | |- context [Sh.run ?st (String ?c ?s)] =>
                        let r := eval cbv -[app] in (Sh.run st (String c s)) in
                        change (Sh.run st (String c s)) with r
                    end ];
            cbv beta iota);
    rewrite Ht; cbv -[app]; rewrite <- ?app_assoc; reflexivity.
Qed.

Lemma tokens_command remote_path skip_backup :
  Sh.tokens (remote_cmd remote_path skip_backup)
  = Some (remote_tokens remote_path skip_backup).
Proof.
  unfold remote_cmd, backup_cmd, remote_tokens, prepare_tokens, backup_tokens,
    replace_tokens, backup_file.
  apply tokens_template; intros; apply run_quote.
Qed.

(** Every word of the command is in the fragment: the values bring no
    unquoted special character. *)
Lemma remote_tokens_in_fragment remote_path skip_backup :
  List.forallb Sh.in_fragment (remote_tokens remote_path skip_backup) = true.
Proof.
  unfold remote_tokens, prepare_tokens, backup_tokens, replace_tokens, backup_file.
  destruct skip_backup; cbn [app List.forallb];
    repeat (apply andb_true_intro; split);
    first [ apply fragment_word; rewrite ?forallb_app, ?arg_plain; reflexivity
          | reflexivity ].
Qed.

Lemma lex_command remote_path skip_backup :
  Sh.lex (remote_cmd remote_path skip_backup) = Some (remote_tokens remote_path skip_backup).
Proof.
  unfold Sh.lex. by rewrite tokens_command, remote_tokens_in_fragment.
Qed.

(** What quoting is for: a pattern character that is not quoted puts
    the command outside the fragment, the same character quoted is one
    literal piece of a word. *)
Example unquoted_pattern_is_no_literal :
  Sh.lex "rm -rf *" = None
  ∧ Sh.lex "rm -rf ~" = None
  ∧ Sh.lex "rm -rf '*'" = Some [kw "rm"; kw "-rf"; Sh.Word [Sh.Q "*"]]
  ∧ shlex.quote "*" = "'*'".
Proof. by vm_compute. Qed.

End LexFacts.

(** ** Paths and the file system *)

Section PathFacts.

Lemma node_ind' (P : node → Prop) :
  (∀ r, P (File r)) →
  (∀ entries, Forall (λ e, P e.2) entries → P (Dir entries)) →
  ∀ n, P n.
Proof.
  intros HF HD. fix IH 1. intros [r|entries]; [apply HF|].
  apply HD. induction entries as [|[f c] entries IHe]; constructor; [apply IH|apply IHe].
Qed.

Lemma child_Some f entries c :
  child f entries = Some c → (f, c) ∈ entries.
Proof.
  induction entries as [|[g n] entries IH]; simpl; [done|].
  destruct (String.eqb_spec f g) as [->|_].
  - intros [= ->]. left.
  - intros H. right. by apply IH.
Qed.

Lemma wf_entry entries f c :
  wf (Dir entries) = true → (f, c) ∈ entries → valid_name f = true ∧ wf c = true.
Proof.
  simpl. rewrite forallb_forall. intros H Hin.
  apply list_elem_of_In in Hin. specialize (H _ Hin). simpl in H.
  by apply andb_true_iff in H.
Qed.

(** Walking a well-formed tree meets names only and ends in a
    well-formed tree. *)
Lemma walk_valid ps : ∀ n m,
  wf n = true → walk n ps = Some m →
  Forall (λ p, valid_name p = true) ps ∧ wf m = true.
Proof.
  induction ps as [|p ps IH]; intros n m Hwf; simpl.
  - intros [= <-]. by split.
  - destruct n as [r|entries]; [done|].
    destruct (child p entries) as [c|] eqn:Hc; [|done].
    intros Hw. apply child_Some in Hc.
    destruct (wf_entry _ _ _ Hwf Hc) as [Hp Hcwf].
    destruct (IH _ _ Hcwf Hw) as [Hps Hm]. split; [by constructor|done].
Qed.

Lemma removelast_Forall {A} (P : A → Prop) l : Forall P l → Forall P (List.removelast l).
Proof.
  induction 1 as [|x l Hx Hl IH]; simpl; [constructor|].
  destruct l; [constructor|by constructor].
Qed.

Lemma resolve_steps_no_dotdot ps : ∀ acc,
  Forall (λ c, c ≠ "..") acc → Forall (λ c, c ≠ "..") (fold_left resolve_step ps acc).
Proof.
  induction ps as [|p ps IH]; intros acc Hacc; simpl; [done|].
  apply IH. unfold resolve_step. destruct (String.eqb_spec p "..") as [->|Hp].
  - by apply removelast_Forall.
  - apply Forall_app. split; [done|]. by constructor.
Qed.

Lemma resolve_steps_plain ps : ∀ acc,
  Forall (λ c, c ≠ "..") ps → fold_left resolve_step ps acc = acc ++ ps.
Proof.
  induction ps as [|p ps IH]; intros acc Hps; simpl; [by rewrite app_nil_r|].
  apply Forall_cons in Hps as [Hp Hps]. rewrite (IH _ Hps).
  unfold resolve_step. destruct (String.eqb_spec p ".."); [done|].
  by rewrite <- app_assoc.
Qed.

(** Resolving a resolved path changes nothing. *)
Lemma resolve_idem env p :
  Forall (λ c, c ≠ "..") (env_cwd env) →
  resolve env (resolve env p) = resolve env p.
Proof.
  intros Hcwd. unfold resolve at 1. simpl. f_equal.
  rewrite resolve_steps_plain; [done|].
  apply resolve_steps_no_dotdot. by destruct (String.eqb _ _).
Qed.

Lemma split_append_slash s :
  PyStr.split PyStr.slash (s +:+ "/") = PyStr.split PyStr.slash s ++ [""].
Proof.
  induction s as [|c s IH]; [done|]. rewrite str_app_cons. simpl. rewrite IH.
  destruct (Ascii.eqb c PyStr.slash); [done|].
  pose proof (split_not_nil PyStr.slash s). by destruct (PyStr.split PyStr.slash s).
Qed.

Lemma root_append_slash s :
  s ≠ "" →
  String.eqb (PurePath.root (Path (s +:+ "/"))) "" = String.eqb (PurePath.root (Path s)) "".
Proof.
  intros Hs. destruct s as [|a s]; [done|]. rewrite str_app_cons.
  unfold Path, PurePath.parse.
  pose proof (splitroot_cases (String a s)) as H1.
  pose proof (splitroot_cases (String a (s +:+ "/"))) as H2.
  destruct (ascii_dec a "/") as [->|Ha].
  - assert (∀ r, (PurePath.splitroot (String "/" r)).1 ≠ "") as Hr.
    { intros [|b [|c r]]; simpl; try done.
      - destruct b as [[] [] [] [] [] [] [] []]; done.
      - destruct b as [[] [] [] [] [] [] [] []]; try done.
        destruct c as [[] [] [] [] [] [] [] []]; done. }
    pose proof (Hr s) as Hs1. pose proof (Hr (s +:+ "/")) as Hs2.
    destruct (PurePath.splitroot (String "/" s)) as [r1 ?].
    destruct (PurePath.splitroot (String "/" (s +:+ "/"))) as [r2 ?]. simpl in *.
    apply String.eqb_neq in Hs1, Hs2. by rewrite Hs1, Hs2.
  - assert (∀ r, PurePath.splitroot (String a r) = ("", String a r)) as Hr.
    { intros r. destruct a as [[] [] [] [] [] [] [] []]; try reflexivity. by destruct Ha. }
    by rewrite !Hr.
Qed.

(** A trailing separator does not change what a path resolves to. *)
Lemma resolve_trailing_slash env s :
  s ≠ "" → resolve env (Path (s +:+ "/")) = resolve env (Path s).
Proof.
  intros Hs. unfold resolve. rewrite (root_append_slash _ Hs). f_equal. f_equal.
  rewrite !parse_tail. unfold spec_components. rewrite split_append_slash.
  rewrite List.filter_app. simpl. by rewrite app_nil_r.
Qed.

(** An absolute path made of the working directory and a relative path
    resolves to the same place as the relative path. *)
Lemma resolve_absolute env p q :
  Forall (λ c, c ≠ "..") (env_cwd env) →
  PurePath.root p = "" →
  q = PurePath.mk "/" (env_cwd env ++ PurePath.tail p) →
  resolve env q = resolve env p.
Proof.
  intros Hcwd Hp ->. unfold resolve. simpl. rewrite Hp. simpl. f_equal.
  rewrite fold_left_app. f_equal. by rewrite resolve_steps_plain.
Qed.

End PathFacts.

(** ** What [tar_add] writes *)

Section ArchiveFacts.

Lemma startswith_app a x p :
  PyStr.startswith a p = true → PyStr.startswith (a +:+ x) p = true.
Proof.
  revert a. induction p as [|b p IH]; intros a; [reflexivity|].
  destruct a as [|c a]; [done|]. rewrite str_app_cons. simpl.
  destruct (Ascii.eqb c b); [apply IH|done].
Qed.

Lemma startswith_refl_app p x : PyStr.startswith (p +:+ x) p = true.
Proof.
  induction p as [|b p IH]; [reflexivity|]. rewrite str_app_cons. simpl.
  by rewrite Ascii.eqb_refl.
Qed.

Lemma contains_app c s t :
  PyStr.contains c (s +:+ t) = PyStr.contains c s || PyStr.contains c t.
Proof.
  induction s as [|a s IH]; [done|]. rewrite str_app_cons. simpl.
  by rewrite IH, orb_assoc.
Qed.

Lemma no_slash_endswith a :
  PyStr.contains PyStr.slash a = false → PyStr.endswith a "/" = false.
Proof.
  intros H. apply not_true_iff_false. intros He.
  apply endswith_spec in He as [pre ->].
  rewrite contains_app in H. apply orb_false_iff in H as [_ H]. done.
Qed.

Lemma valid_name_facts f :
  valid_name f = true →
  f ≠ "" ∧ PyStr.contains PyStr.slash f = false ∧ PyStr.startswith f "/" = false.
Proof.
  unfold valid_name. rewrite andb_true_iff, !negb_true_iff, String.eqb_neq.
  intros [Hne Hc]. split; [done|]. split; [done|].
  destruct f as [|a f]; [done|]. unfold PyStr.slash in *. simpl in *.
  apply orb_false_iff in Hc as [Ha _]. by rewrite Ha.
Qed.

Lemma lstrip_id a : PyStr.startswith a "/" = false → PyStr.lstrip PyStr.slash a = a.
Proof.
  destruct a as [|c a]; [done|]. simpl.
  destruct (Ascii.eqb c "/") eqn:Hc; [by destruct a|].
  by unfold PyStr.slash; rewrite Hc.
Qed.

(** The archive name of an entry keeps its directory's archive name in
    front. *)
Lemma path_join_prefix a f p :
  valid_name f = true → PyStr.startswith a p = true →
  PyStr.startswith (path_join a f) p = true.
Proof.
  intros Hf Ha. destruct (valid_name_facts _ Hf) as (_ & _ & Hs).
  unfold path_join. rewrite Hs.
  destruct (_ || _); by apply startswith_app.
Qed.

Lemma path_join_relative a f :
  valid_name f = true → PyStr.startswith a "/" = false →
  PyStr.startswith (path_join a f) "/" = false.
Proof.
  intros Hf Ha. destruct (valid_name_facts _ Hf) as (_ & _ & Hs).
  unfold path_join. rewrite Hs. destruct a as [|c a]; [done|].
  destruct (_ || _); rewrite str_app_cons; exact Ha.
Qed.

Lemma path_join_name a f :
  valid_name a = true → valid_name f = true → path_join a f = a +:+ "/" +:+ f.
Proof.
  intros Ha Hf. destruct (valid_name_facts _ Hf) as (_ & _ & Hs).
  destruct (valid_name_facts _ Ha) as (Hne & Hc & _).
  unfold path_join. rewrite Hs, (no_slash_endswith _ Hc).
  apply String.eqb_neq in Hne. by rewrite Hne.
Qed.

Lemma run_visits_Forall (P : TarInfo → Prop) visits :
  Forall (λ v, Forall P v.2.1) visits → Forall P (run_visits visits).1.
Proof.
  induction 1 as [|[f [members [e|]]] visits Hv Hvs IH]; simpl; [constructor|done|].
  destruct (run_visits visits) as [members' e']. simpl in *.
  apply Forall_app. by split.
Qed.

Section Under.

Variable top : string.

(** Below an archive name under [top], every member is under [top]. *)
Lemma tar_add_under n : ∀ name arcname,
  wf n = true →
  PyStr.startswith arcname (top +:+ "/") = true →
  PyStr.startswith arcname "/" = false →
  Forall (λ ti, PyStr.startswith (ti_name ti) (top +:+ "/") = true)
         (tar_add tar_filter n name arcname).1.
Proof.
  induction n as [r|entries IH] using node_ind'; intros name arcname Hwf Ha Hs; simpl.
  - destruct (tar_filter_cases (gettarinfo (File r) arcname)) as [-> | ->]; [constructor|].
    destruct r; simpl; [|constructor].
    constructor; [|constructor]. simpl. by rewrite lstrip_id.
  - destruct (tar_filter_cases (gettarinfo (Dir entries) arcname)) as [-> | ->];
      [constructor|].
    match goal with |- context [run_visits ?v] =>
      assert (Forall (λ ti, PyStr.startswith (ti_name ti) (top +:+ "/") = true)
                     (run_visits v).1) as Hv; [|destruct (run_visits v)] end.
    + apply run_visits_Forall.
      rewrite merge_sort_Permutation. apply Forall_map.
      apply Forall_forall. intros [f c] Hin. simpl.
      destruct (wf_entry _ _ _ Hwf Hin) as [Hf Hc].
      rewrite Forall_forall in IH. apply (IH _ Hin); [done| |].
      * by apply path_join_prefix.
      * by apply path_join_relative.
    + simpl. constructor; [|done]. simpl. by rewrite lstrip_id.
Qed.

End Under.

(** The first member of the archive of a directory the filter lets
    through is the directory itself, under the archive name; the other
    members are below it. *)
Lemma tar_add_root entries name arcname :
  wf (Dir entries) = true →
  PyStr.startswith arcname "/" = false →
  tar_filter (mkTarInfo arcname DIRTYPE) ≠ None →
  ∃ rest, (tar_add tar_filter (Dir entries) name arcname).1
          = mkTarInfo arcname DIRTYPE :: rest
    ∧ (valid_name arcname = true →
       Forall (λ ti, PyStr.startswith (ti_name ti) (arcname +:+ "/") = true) rest).
Proof.
  intros Hwf Hs Hf. simpl. unfold gettarinfo. rewrite (lstrip_id _ Hs).
  destruct (tar_filter_cases (mkTarInfo arcname DIRTYPE)) as [H | ->]; [done|].
  match goal with |- context [run_visits ?v] =>
    assert (valid_name arcname = true →
            Forall (λ ti, PyStr.startswith (ti_name ti) (arcname +:+ "/") = true)
                   (run_visits v).1) as Hv; [|destruct (run_visits v)] end.
  - intros Ha. apply run_visits_Forall.
    rewrite merge_sort_Permutation. apply Forall_map.
    apply Forall_forall. intros [f c] Hin. simpl.
    destruct (wf_entry _ _ _ Hwf Hin) as [Hfv Hc].
    rewrite (path_join_name _ _ Ha Hfv). apply tar_add_under; [done| |].
    + rewrite <- str_app_assoc. apply startswith_refl_app.
    + destruct arcname as [|c0 arcname]; [done|]. rewrite str_app_cons. exact Hs.
  - simpl. eexists. split; [done|]. apply Hv.
Qed.

(** Where the filter rejects the archive name, nothing is added. *)
Lemma tar_add_excluded n name arcname :
  PyStr.startswith arcname "/" = false → spec_excluded arcname →
  tar_add tar_filter n name arcname = ([], None).
Proof.
  intros Hrel Hex.
  assert (tar_filter (gettarinfo n arcname) = None) as Hnone.
  { apply tar_filter_none. unfold gettarinfo. simpl. by rewrite (lstrip_id _ Hrel). }
  destruct n; simpl; by rewrite Hnone.
Qed.

(** A source whose own name is excluded leaves nothing to archive. *)
Lemma tar_add_ignored n name arcname :
  arcname ∈ IGNORE_NAMES → tar_add tar_filter n name arcname = ([], None).
Proof.
  intros Hin.
  assert (tar_filter (gettarinfo n arcname) = None) as Hnone.
  { unfold IGNORE_NAMES in Hin. rewrite !elem_of_union, !elem_of_singleton in Hin.
    repeat destruct Hin as [Hin|Hin]; subst; by destruct n. }
  destruct n; simpl; by rewrite Hnone.
Qed.

End ArchiveFacts.

(** ** The time stamp *)

Section DateFacts.













End DateFacts.

(** ** The steps of [main] *)

Section MainFacts.

Lemma ensure_tools_present env s :
  env_which env "ssh" ≠ None → env_which env "scp" ≠ None →
  ensure_tools env s = (Return tt, s).
Proof.
  intros Hssh Hscp. unfold ensure_tools. simpl.
  destruct (env_which env "ssh"); [|done]. by destruct (env_which env "scp").
Qed.

Lemma ensure_tools_missing env s :
  env_which env "ssh" = None ∨ env_which env "scp" = None →
  ∃ missing, ensure_tools env s
             = (Raise (SystemExit ("Missing required commands: " +:+ missing)), s).
Proof.
  intros H. unfold ensure_tools. simpl.
  destruct (env_which env "ssh"), (env_which env "scp"); simpl;
    [by destruct H|eauto..].
Qed.

Lemma ensure_tools_cases env s :
  ensure_tools env s = (Return tt, s)
  ∨ ∃ missing, ensure_tools env s
               = (Raise (SystemExit ("Missing required commands: " +:+ missing)), s).
Proof.
  destruct (env_which env "ssh") eqn:Hssh; [destruct (env_which env "scp") eqn:Hscp|].
  - left. apply ensure_tools_present; congruence.
  - right. apply ensure_tools_missing. by right.
  - right. apply ensure_tools_missing. by left.
Qed.

Lemma build_archive_not_dir env source s :
  is_dir env source = false →
  build_archive env source s
  = (Raise (SystemExit ("Source directory not found: " +:+ PurePath.to_str source)), s).
Proof. intros H. unfold build_archive. by rewrite H. Qed.

(** What [build_archive] does with a directory: the archive holds what
    [tar_add] wrote, and [add]'s exception, if any, comes out. *)
Lemma build_archive_dir env source s :
  is_dir env source = true →
  ∃ entries,
    walk (env_root env) (PurePath.tail (resolve env source)) = Some (Dir entries)
    ∧ build_archive env source s
      = let added := tar_add tar_filter (Dir entries) (PurePath.to_str source)
                             (PurePath.name source) in
        (match added.2 with
         | None => Return (Path (env_tmp_name env))
         | Some e => Raise e
         end,
         mkState (<[file_of (env_tmp_name env) := added.1]> (st_tmp s))
                 (st_calls s) (st_stdout s)).
Proof.
  intros H. unfold build_archive. rewrite H.
  unfold is_dir in H.
  destruct (walk _ _) as [[r|entries]|] eqn:Hw; try done.
  exists entries. split; [done|].
  unfold mbind, M_bind, NamedTemporaryFile, tarfile_write. cbn [negb]. rewrite Hw.
  unfold file_of.
  destruct (tar_add _ _ _ _) as [members [e|]]; cbn [st_tmp st_calls st_stdout fst snd];
    by rewrite insert_insert_eq.
Qed.

(** The three ways [deploy] can end. *)
Lemma deploy_cases env host remote_path archive_path skip_backup s :
  let scp := scp_call host remote_path archive_path in
  let ssh := ssh_call host remote_path skip_backup in
  let line1 := "[1/3] Uploading archive to " +:+ host +:+ ":" +:+ remote_tmp remote_path in
  let line2 := "[2/3] Deploying to " +:+ host +:+ ":" +:+ PurePath.to_str remote_path in
  deploy env host remote_path archive_path skip_backup s
  = if Z.eqb (env_status env scp) 0 then
      if Z.eqb (env_status env ssh) 0 then
        (Return tt,
         mkState (st_tmp s) (st_calls s ++ [scp; ssh])
                 (st_stdout s ++ [line1; line2; done_message skip_backup]))
      else
        (Raise (CalledProcessError (env_status env ssh) ssh),
         mkState (st_tmp s) (st_calls s ++ [scp; ssh]) (st_stdout s ++ [line1; line2]))
    else
      (Raise (CalledProcessError (env_status env scp) scp),
       mkState (st_tmp s) (st_calls s ++ [scp]) (st_stdout s ++ [line1])).
Proof.
  unfold deploy, mbind, M_bind, print, run, scp_call, ssh_call. simpl.
  destruct (Z.eqb (env_status env _) 0); [|done]. simpl.
  destruct (Z.eqb (env_status env _) 0); simpl; by rewrite <- !app_assoc.
Qed.

Lemma deploy_keeps_tmp env host remote_path archive_path skip_backup s :
  st_tmp (deploy env host remote_path archive_path skip_backup s).2 = st_tmp s.
Proof. rewrite deploy_cases. simpl. by repeat case_match. Qed.

(** Once the tools are there, [main] is [build_archive] followed by
    [deploy] under its cleanup. *)
Lemma main_with_tools env args s :
  ensure_tools env s = (Return tt, s) →
  main env args s
  = match build_archive env (resolve env (Path (source args))) s with
    | (Return archive_path, s1) =>
        try_finally (deploy env (host args) (Path (remote_path args)) archive_path
                            (skip_backup args))
                    (unlink archive_path) s1
    | (Raise e, s1) => (Raise e, s1)
    end.
Proof.
  intros H. unfold main. unfold mbind at 1, M_bind at 1. rewrite H.
  unfold mbind, M_bind. by destruct (build_archive _ _ _) as [[a|e] s1].
Qed.

Lemma main_without_tools env args s e s1 :
  ensure_tools env s = (Raise e, s1) → main env args s = (Raise e, s1).
Proof. intros H. unfold main. unfold mbind at 1, M_bind at 1. by rewrite H. Qed.

(** When [build_archive] has returned, the archive is gone by the time
    [main] ends, however [deploy] ends: the temporary directory is as
    it was before the run. *)
Lemma main_cleans_after_build env args s archive_path s1 :
  ensure_tools env s = (Return tt, s) →
  st_tmp s !! file_of (env_tmp_name env) = None →
  build_archive env (resolve env (Path (source args))) s = (Return archive_path, s1) →
  st_tmp (main env args s).2 = st_tmp s.
Proof.
  intros Ht Hfresh Hb. rewrite (main_with_tools _ _ _ Ht), Hb.
  destruct (is_dir env (resolve env (Path (source args)))) eqn:Hdir.
  - destruct (build_archive_dir env _ s Hdir) as (entries & _ & Hbuild).
    rewrite Hbuild in Hb. cbn zeta in Hb.
    destruct (tar_add _ _ _ _) as [members [e|]]; simplify_eq/=.
    unfold try_finally, unlink.
    pose proof (deploy_keeps_tmp env (host args) (Path (remote_path args))
                  (Path (env_tmp_name env)) (skip_backup args)
                  (mkState (<[file_of (env_tmp_name env) := members]> (st_tmp s))
                           (st_calls s) (st_stdout s))) as Hkeep.
    destruct (deploy _ _ _ _ _ _) as [r s2]. simpl in *. rewrite Hkeep.
    unfold file_of. by rewrite delete_insert_id.
  - by rewrite (build_archive_not_dir _ _ _ Hdir) in Hb.
Qed.

(** The project of [machine] is packed without its version-control
    metadata and without its compiled bytecode. *)
Example archive_of_project :
  archive_members machine (resolve machine (Path "proj")) (initial ∅)
  = Some [mkTarInfo "proj" DIRTYPE; mkTarInfo "proj/app.py" REGTYPE].
Proof. by vm_compute. Qed.

(** A complete run on [machine]: two external commands, three lines,
    and the temporary directory empty again. *)
Example run_on_machine :
  main machine proj_args (initial ∅)
  = (Return tt,
     mkState ∅
       [scp_call DEFAULT_HOST (Path DEFAULT_REMOTE_PATH) (Path "/tmp/tmpk3v9.tar.gz");
        ssh_call DEFAULT_HOST (Path DEFAULT_REMOTE_PATH) false]
       ["[1/3] Uploading archive to root@10.1.87.45:/tmp/dbus-serialbattery-deploy.tar.gz";
        "[2/3] Deploying to root@10.1.87.45:/data/apps/dbus-serialbattery";
        "[3/3] Done. Previous install backed up with timestamp suffix."]).
Proof. by vm_compute. Qed.

End MainFacts.

(** ** The remote shell stops at the first step that fails *)

Section ScriptFacts.

#[local] Arguments Sh.exec_simple : simpl never.

Lemma parse_template (ab an at' bf : list Sh.seg) (skip_backup : bool) :
  Sh.parse
    ([kw "set"; kw "-euo"; kw "pipefail"; semi;
      kw "mkdir"; kw "-p"; Sh.Word ab; semi; kw "cd"; Sh.Word ab; semi]
     ++ (if skip_backup then []
         else [kw "if"; kw "["; kw "-d"; Sh.Word an; kw "]"; semi; kw "then";
               Sh.Word (Sh.raw "TS=" ++ [Sh.CmdSubst ("date +" +:+ date_format)]); semi;
               kw "tar"; kw "czf"; Sh.Word bf; Sh.Word an; semi; kw "fi"; semi])
     ++ [kw "rm"; kw "-rf"; Sh.Word an; semi;
         kw "tar"; kw "xzf"; Sh.Word at'; kw "-C"; Sh.Word ab; semi;
         kw "rm"; kw "-f"; Sh.Word at'])
  = Some ([Sh.Simple set_step;
           Sh.Simple [Sh.raw "mkdir"; Sh.raw "-p"; ab];
           Sh.Simple [Sh.raw "cd"; ab]]
          ++ (if skip_backup then []
              else [Sh.If [Sh.Simple [Sh.raw "["; Sh.raw "-d"; an; Sh.raw "]"]]
                          [Sh.Simple stamp_step;
                           Sh.Simple [Sh.raw "tar"; Sh.raw "czf"; bf; an]]])
          ++ [Sh.Simple [Sh.raw "rm"; Sh.raw "-rf"; an];
              Sh.Simple [Sh.raw "tar"; Sh.raw "xzf"; at'; Sh.raw "-C"; ab];
              Sh.Simple [Sh.raw "rm"; Sh.raw "-f"; at']]).
Proof. destruct skip_backup; vm_compute; reflexivity. Qed.

Lemma parse_command remote_path skip_backup :
  Sh.parse (remote_tokens remote_path skip_backup)
  = Some (remote_script remote_path skip_backup).
Proof. apply parse_template. Qed.

Section Exec.

Variable fails : list (list Sh.seg) → bool.

(** One command at a time. *)
Lemma exec_set ws rest e ok tr :
  Sh.is_set ws = true → Sh.sets_errexit ws = true →
  Sh.exec_seq (Sh.exec fails) (Sh.Simple ws :: rest) false (Sh.mkX e ok false tr)
  = if fails ws then Sh.mkX e false true (tr ++ [ws])
    else Sh.exec_seq (Sh.exec fails) rest false (Sh.mkX true true false (tr ++ [ws])).
Proof.
  intros Hs He. simpl. unfold Sh.exec_simple. rewrite Hs, He.
  destruct (fails ws); simpl; [done|]. by rewrite orb_true_r.
Qed.

Lemma exec_plain ws rest ok tr :
  Sh.is_set ws = false →
  Sh.exec_seq (Sh.exec fails) (Sh.Simple ws :: rest) false (Sh.mkX true ok false tr)
  = if fails ws then Sh.mkX true false true (tr ++ [ws])
    else Sh.exec_seq (Sh.exec fails) rest false (Sh.mkX true true false (tr ++ [ws])).
Proof. intros H. simpl. unfold Sh.exec_simple. rewrite H. by destruct (fails ws). Qed.

Lemma exec_plain_loose ws rest ok tr :
  Sh.is_set ws = false →
  Sh.exec_seq (Sh.exec fails) (Sh.Simple ws :: rest) false (Sh.mkX false ok false tr)
  = Sh.exec_seq (Sh.exec fails) rest false
                (Sh.mkX false (negb (fails ws)) false (tr ++ [ws])).
Proof. intros H. simpl. unfold Sh.exec_simple. rewrite H. by destruct (fails ws). Qed.

Lemma exec_if test b1 b2 rest ok tr :
  Sh.is_set test = false →
  Sh.exec_seq (Sh.exec fails)
              (Sh.If [Sh.Simple test] [Sh.Simple b1; Sh.Simple b2] :: rest) false
              (Sh.mkX true ok false tr)
  = if fails test
    then Sh.exec_seq (Sh.exec fails) rest false (Sh.mkX true true false (tr ++ [test]))
    else Sh.exec_seq (Sh.exec fails) (Sh.Simple b1 :: Sh.Simple b2 :: rest) false
                     (Sh.mkX true true false (tr ++ [test])).
Proof.
  intros H. simpl. unfold Sh.exec_simple. rewrite H.
  destruct (fails test); simpl; [done|].
  destruct (Sh.is_set b1), (fails b1); simpl; try done;
    destruct (Sh.is_set b2), (fails b2); simpl; done.
Qed.

Variable steps : list (list (list Sh.seg)).

Lemma fail_fast_one a : fail_fast fails steps [a].
Proof.
  intros x before after _ _ H. destruct before as [|b [|c before]]; by simplify_eq/=.
Qed.

Lemma fail_fast_cons a tr :
  fails a = false ∨ a ∉ steps → fail_fast fails steps tr → fail_fast fails steps (a :: tr).
Proof.
  intros Ha Htr x before after Hx Hf H. destruct before as [|b before]; simplify_eq/=.
  - destruct Ha; [congruence|done].
  - by eapply Htr.
Qed.

End Exec.

(** A list of commands of the shape of the remote command, run from a
    fresh shell: when its first command switches [errexit] on, a step
    that fails is the last command run. *)
Lemma errexit_script fails s0 mk cd test ts bk rm ex cl (skip_backup : bool) :
  Sh.is_set s0 = true ∧ Sh.sets_errexit s0 = true →
  Forall (λ ws, Sh.is_set ws = false) [mk; cd; test; ts; bk; rm; ex; cl] →
  let script :=
    [Sh.Simple s0; Sh.Simple mk; Sh.Simple cd]
    ++ (if skip_backup then [] else [Sh.If [Sh.Simple test] [Sh.Simple ts; Sh.Simple bk]])
    ++ [Sh.Simple rm; Sh.Simple ex; Sh.Simple cl] in
  let steps := [mk; cd] ++ (if skip_backup then [] else [ts; bk]) ++ [rm; ex; cl] in
  s0 ∉ steps → test ∉ steps →
  fail_fast fails steps
    (Sh.x_trace (Sh.exec_seq (Sh.exec fails) script false (Sh.mkX false true false []))).
Proof.
  intros [H0 H0'] Hs.
  repeat match goal with H : Forall _ (_ :: _) |- _ => apply Forall_cons in H as [? H] end.
  clear Hs. intros script steps Hs0 Htest. subst script.
  destruct skip_backup; cbn [app];
    repeat (first [ rewrite exec_set by done | rewrite exec_plain by done
                  | rewrite exec_if by done ];
            match goal with |- context [if fails ?w then _ else _] =>
              destruct (fails w) eqn:?
            end);
    cbn [Sh.exec_seq Sh.x_trace app];
    repeat first [ apply fail_fast_one | apply fail_fast_cons; [by auto|] ].
Qed.

(** When nothing fails every command runs. *)
Lemma all_run s0 mk cd test ts bk rm ex cl (skip_backup : bool) :
  Sh.is_set s0 = true ∧ Sh.sets_errexit s0 = true →
  Forall (λ ws, Sh.is_set ws = false) [mk; cd; test; ts; bk; rm; ex; cl] →
  Sh.x_trace
    (Sh.exec_seq (Sh.exec (λ _, false))
       ([Sh.Simple s0; Sh.Simple mk; Sh.Simple cd]
        ++ (if skip_backup then [] else [Sh.If [Sh.Simple test] [Sh.Simple ts; Sh.Simple bk]])
        ++ [Sh.Simple rm; Sh.Simple ex; Sh.Simple cl])
       false (Sh.mkX false true false []))
  = [s0; mk; cd] ++ (if skip_backup then [] else [test; ts; bk]) ++ [rm; ex; cl].
Proof.
  intros [H0 H0'] Hs.
  repeat match goal with H : Forall _ (_ :: _) |- _ => apply Forall_cons in H as [? H] end.
  destruct skip_backup; cbn [app]; rewrite exec_set by done;
    repeat first [ rewrite exec_plain by done | rewrite exec_if by done ]; reflexivity.
Qed.

(** Without [set -e] the shell goes on after a step that fails. *)
Lemma errexit_needed fails a b :
  Sh.is_set a = false → Sh.is_set b = false →
  Sh.x_trace (Sh.exec_seq (Sh.exec fails) [Sh.Simple a; Sh.Simple b] false
                          (Sh.mkX false true false []))
  = [a; b].
Proof. intros Ha Hb. by rewrite !exec_plain_loose. Qed.

Lemma remote_trace remote_path skip_backup fails :
  Sh.trace fails (remote_cmd remote_path skip_backup)
  = Some (Sh.x_trace (Sh.exec_seq (Sh.exec fails) (remote_script remote_path skip_backup)
                                  false (Sh.mkX false true false []))).
Proof. unfold Sh.trace. by rewrite lex_command, parse_command. Qed.

Lemma remote_steps_plain remote_path :
  (Sh.is_set set_step = true ∧ Sh.sets_errexit set_step = true)
  ∧ Forall (λ ws, Sh.is_set ws = false)
      [mkdir_step (remote_base remote_path); cd_step (remote_base remote_path);
       test_step (PurePath.name remote_path); stamp_step;
       backup_step_words (PurePath.name remote_path);
       remove_step (PurePath.name remote_path);
       extract_step (remote_base remote_path) (remote_tmp remote_path);
       cleanup_step (remote_tmp remote_path)].
Proof. split; [by vm_compute|]. repeat constructor. Qed.

Lemma set_is_no_test name : set_step ≠ test_step name.
Proof. discriminate. Qed.

Lemma remote_steps_apart remote_path skip_backup :
  (set_step ∉ remote_steps remote_path skip_backup)
  ∧ (test_step (PurePath.name remote_path) ∉ remote_steps remote_path skip_backup).
Proof.
  unfold remote_steps.
  split; destruct skip_backup; cbn [app];
    rewrite ?not_elem_of_cons; repeat split; try discriminate; apply not_elem_of_nil.
Qed.

(** The run in which every command succeeds except, on a target
    without the directory, the test of the [if]. *)
Lemma trace_by_directory remote_path skip_backup (remote_is_dir : bool) :
  Sh.trace (λ ws, bool_decide (ws = test_step (PurePath.name remote_path))
                  && negb remote_is_dir)
           (remote_cmd remote_path skip_backup)
  = Some ([set_step; mkdir_step (remote_base remote_path);
           cd_step (remote_base remote_path)]
          ++ (if skip_backup then []
              else test_step (PurePath.name remote_path)
                   :: (if remote_is_dir
                       then [stamp_step; backup_step_words (PurePath.name remote_path)]
                       else []))
          ++ [remove_step (PurePath.name remote_path);
              extract_step (remote_base remote_path) (remote_tmp remote_path);
              cleanup_step (remote_tmp remote_path)]).
Proof.
  rewrite remote_trace. f_equal. unfold remote_script.
  destruct (remote_steps_plain remote_path) as [[H0 H0'] Hs].
  repeat match goal with H : Forall _ (_ :: _) |- _ => apply Forall_cons in H as [? H] end.
  destruct skip_backup, remote_is_dir; cbn [app]; rewrite exec_set by done;
    repeat first [ rewrite exec_plain by done | rewrite exec_if by done ];
    rewrite ?andb_false_r, ?andb_true_r;
    repeat (rewrite bool_decide_eq_false_2 by discriminate);
    rewrite ?bool_decide_eq_true_2 by done; reflexivity.
Qed.

End ScriptFacts.

(** ** Exclusion by name reaches everything below *)

Section FilterMore.

Lemma split_app a b :
  PyStr.split PyStr.slash (a +:+ b)
  = List.removelast (PyStr.split PyStr.slash a)
    ++ match PyStr.split PyStr.slash b with
       | hb :: tb => (List.last (PyStr.split PyStr.slash a) "" +:+ hb) :: tb
       | [] => []
       end.
Proof.
  induction a as [|c a IH].
  - simpl. rewrite str_app_nil_l. pose proof (split_not_nil PyStr.slash b).
    by destruct (PyStr.split PyStr.slash b).
  - rewrite str_app_cons. simpl. rewrite IH.
    pose proof (split_not_nil PyStr.slash a) as Ha.
    pose proof (split_not_nil PyStr.slash b) as Hb.
    destruct (PyStr.split PyStr.slash b) as [|hb tb]; [done|].
    destruct (Ascii.eqb c PyStr.slash).
    + destruct (PyStr.split PyStr.slash a) as [|w ws]; [done|]. done.
    + destruct (PyStr.split PyStr.slash a) as [|w ws]; [done|].
      destruct ws as [|w' ws]; simpl; [done|]. done.
Qed.

Lemma split_ends_slash a :
  PyStr.endswith a "/" = true → List.last (PyStr.split PyStr.slash a) "" = "".
Proof.
  intros [pre ->]%endswith_spec. rewrite split_append_slash. apply last_last.
Qed.

(** The components of a directory's archive name that are names stay
    components of the archive name of each of its entries. *)
Lemma components_join a f part :
  PyStr.startswith f "/" = false → part ≠ "" →
  part ∈ spec_components a → part ∈ spec_components (path_join a f).
Proof.
  unfold spec_components, path_join. intros Hf Hne Hin. rewrite Hf.
  pose proof (split_not_nil PyStr.slash a) as Ha.
  destruct (String.eqb_spec a "") as [->|Hane]; simpl.
  - simpl in Hin. apply list_elem_of_singleton in Hin. done.
  - destruct (PyStr.endswith a "/") eqn:He.
    + rewrite split_app. apply elem_of_app. left.
      rewrite (app_removelast_last "" Ha), (split_ends_slash _ He) in Hin.
      apply elem_of_app in Hin as [Hin|Hin]; [done|].
      apply list_elem_of_singleton in Hin. done.
    + rewrite split_app. change (PyStr.split PyStr.slash ("/" +:+ f))
        with ("" :: PyStr.split PyStr.slash f).
      cbv iota. rewrite str_app_nil_r.
      rewrite (app_removelast_last "" Ha) in Hin.
      apply elem_of_app in Hin as [Hin|Hin]; apply elem_of_app; [by left|right].
      apply list_elem_of_singleton in Hin. subst. left.
Qed.

Lemma ignored_not_empty part : part ∈ IGNORE_NAMES → part ≠ "".
Proof. intros H%ignore_names_keep ->. done. Qed.

End FilterMore.

(** ** The remote path, its parent and its name *)

Section RemotePath.

Lemma split_no_slash s :
  Forall (λ c, PyStr.contains PyStr.slash c = false) (PyStr.split PyStr.slash s).
Proof.
  induction s as [|a s IH]; simpl; [by repeat constructor|].
  destruct (Ascii.eqb a PyStr.slash) eqn:Ha; [by constructor|].
  pose proof (split_not_nil PyStr.slash s).
  destruct (PyStr.split PyStr.slash s) as [|w ws]; [done|].
  apply Forall_cons in IH as [Hw Hws]. constructor; [|done]. simpl. by rewrite Ha.
Qed.

(** The components of a parsed path are names. *)
Lemma parse_tail_names s : Forall (λ c, valid_name c = true) (PurePath.tail (Path s)).
Proof.
  rewrite parse_tail. unfold spec_components.
  pose proof (split_no_slash s) as H. induction H as [|c cs Hc Hcs IH]; simpl; [constructor|].
  destruct (PurePath.keep_part c) eqn:Hk; [|done]. constructor; [|done].
  unfold valid_name. rewrite Hc. unfold PurePath.keep_part in Hk.
  apply andb_true_iff in Hk as [Hk _]. by rewrite Hk.
Qed.

Lemma join_snoc l x :
  PyStr.join "/" (l ++ [x])
  = match l with [] => x | _ => PyStr.join "/" l +:+ "/" +:+ x end.
Proof.
  induction l as [|a l IH]; [done|]. simpl app.
  destruct l as [|b l]; [done|].
  change (PyStr.join "/" (a :: (b :: l) ++ [x]))
    with (a +:+ "/" +:+ PyStr.join "/" ((b :: l) ++ [x])).
  rewrite IH.
  change (PyStr.join "/" (a :: b :: l)) with (a +:+ "/" +:+ PyStr.join "/" (b :: l)).
  by rewrite !str_app_assoc.
Qed.

Lemma app_eq_snoc x c pre ch :
  c ≠ "" → x +:+ c = pre +:+ String ch "" → ∃ c', c = c' +:+ String ch "".
Proof.
  revert pre. induction x as [|a x IH]; intros pre Hc H.
  - by exists pre.
  - destruct pre as [|b pre].
    + rewrite str_app_cons in H. simpl in H. injection H as _ H.
      destruct x; [|done]. by rewrite str_app_nil_l in H.
    + rewrite !str_app_cons in H. injection H as _ H. by eapply IH.
Qed.

(** Text that ends in a name does not end in a separator. *)
Lemma ends_in_name x c :
  valid_name c = true → PyStr.endswith (x +:+ c) "/" = false.
Proof.
  intros Hc. destruct (valid_name_facts _ Hc) as (Hne & Hs & _).
  apply not_true_iff_false. intros [pre H]%endswith_spec.
  destruct (app_eq_snoc _ _ _ _ Hne H) as [c' ->].
  rewrite contains_app in Hs. apply orb_false_iff in Hs as [_ Hs]. done.
Qed.

Lemma rejoin root init name :
  root = "/" ∨ root = "//" →
  Forall (λ c, valid_name c = true) init → valid_name name = true →
  path_join (PurePath.to_str (PurePath.mk root init)) name
  = PurePath.to_str (PurePath.mk root (init ++ [name])).
Proof.
  intros Hroot Hinit Hname. unfold PurePath.to_str. cbn [PurePath.root PurePath.tail].
  assert (∀ x, String.eqb (root +:+ x) "" = false) as Hne.
  { intros x. apply String.eqb_neq. by destruct Hroot as [-> | ->]. }
  rewrite !Hne. destruct (valid_name_facts _ Hname) as (_ & _ & Hrel).
  unfold path_join. rewrite Hrel, Hne. cbn [orb].
  rewrite join_snoc. destruct init as [|i0 init] using rev_ind.
  - cbn [PyStr.join]. rewrite str_app_nil_r.
    assert (PyStr.endswith root "/" = true) as ->; [|done].
    by destruct Hroot as [-> | ->].
  - clear IHinit. apply Forall_app in Hinit as [_ Hi0]. apply Forall_cons in Hi0 as [Hi0 _].
    assert (PyStr.endswith (root +:+ PyStr.join "/" (init ++ [i0])) "/" = false) as ->.
    { rewrite join_snoc. destruct init; [|rewrite <- !str_app_assoc]; by apply ends_in_name. }
    destruct (init ++ [i0]) eqn:Hl; [by destruct init|]. by rewrite !str_app_assoc.
Qed.

(** For an absolute remote path with a last component, the name the
    command works on, taken in the directory the command enters, is the
    remote path. *)
Lemma remote_path_rejoined s :
  PurePath.root (Path s) ≠ "" → PurePath.tail (Path s) ≠ [] →
  path_join (remote_base (Path s)) (PurePath.name (Path s)) = PurePath.to_str (Path s).
Proof.
  intros Hroot Htail. pose proof (parse_tail_names s) as Hnames.
  assert (PurePath.root (Path s) = "/" ∨ PurePath.root (Path s) = "//") as Hr.
  { by destruct (parse_root s) as [?|?]. }
  unfold remote_base, PurePath.parent, PurePath.name.
  destruct (Path s) as [root tail]. cbn [PurePath.root PurePath.tail] in *.
  destruct tail as [|t0 tail]; [done|].
  set (l := t0 :: tail) in *. assert (l ≠ []) as Hl by done. clearbody l.
  rewrite (app_removelast_last "" Hl) in Hnames.
  apply Forall_app in Hnames as [Hinit Hlast]. apply Forall_cons in Hlast as [Hlast _].
  rewrite (rejoin _ _ _ Hr Hinit Hlast). by rewrite <- (app_removelast_last "" Hl).
Qed.

End RemotePath.

Section RemotePathMore.











End RemotePathMore.

Section BackupPlace.





End BackupPlace.

(** * The properties of the tool *)

(** C1. The path filter excludes an entry exactly when a component of
    its path, split on the directory separator, is an excluded name, or
    its final name component ends with an excluded suffix; every other
    entry is returned unchanged; and the verdict is a function of the
    entry's name alone, whatever the kind of entry. *)
Theorem tar_filter_correct (tarinfo : TarInfo) :
  (tar_filter tarinfo = None ↔ spec_excluded (ti_name tarinfo))
  ∧ (¬ spec_excluded (ti_name tarinfo) ↔ tar_filter tarinfo = Some tarinfo)
  ∧ (∀ kind, tar_filter (mkTarInfo (ti_name tarinfo) kind) = None
             ↔ tar_filter tarinfo = None).
Proof.
  split; [apply tar_filter_none|]. split.
  - rewrite <- tar_filter_none. destruct (tar_filter_cases tarinfo) as [-> | ->]; naive_solver.
  - intros kind. by rewrite !tar_filter_none.
Qed.

(** C2, as stated, fails: a source directory named [venv] is a valid
    source directory, and its archive has no root entry, because the
    filter rejects the root under its own name. *)
Lemma archive_root_missing_for_excluded_name :
  wf (env_root machine) = true
  ∧ is_dir machine (resolve machine (Path "venv")) = true
  ∧ ¬ ∃ rest, archive_members machine (resolve machine (Path "venv")) (initial ∅)
              = Some (mkTarInfo "venv" DIRTYPE :: rest).
Proof.
  split; [reflexivity|]. split; [reflexivity|].
  intros [rest H]. vm_compute in H. discriminate H.
Qed.

(** C2 (amended). For every source directory whose base name the filter
    lets through, the archive starts with an entry named after the base
    name of the resolved source directory, which is a single component
    and never the full path, and every other entry lies below it; for
    every source directory whose base name the filter excludes, by an
    excluded name or by an excluded suffix, [build_archive] returns an
    archive without any entry, so without a root entry; one of the two
    is the case.  The source directory, and so the archive, is the same
    whether the path is given with a trailing separator or as the
    absolute path of the same place. *)
Theorem archive_root_is_base_name (env : Env) (src : string) (s : State) :
  let source_dir := resolve env (Path src) in
  wf (env_root env) = true →
  Forall (λ c, c ≠ "..") (env_cwd env) →
  is_dir env source_dir = true →
  (tar_filter (mkTarInfo (PurePath.name source_dir) DIRTYPE) ≠ None →
   ∃ rest,
     archive_members env source_dir s
     = Some (mkTarInfo (PurePath.name source_dir) DIRTYPE :: rest)
     ∧ (PurePath.name source_dir ≠ "" →
        Forall (λ ti, PyStr.startswith (ti_name ti) (PurePath.name source_dir +:+ "/") = true)
               rest))
  ∧ (spec_excluded (PurePath.name source_dir) →
     (build_archive env source_dir s).1 = Return (Path (env_tmp_name env))
     ∧ archive_members env source_dir s = Some [])
  ∧ (tar_filter (mkTarInfo (PurePath.name source_dir) DIRTYPE) ≠ None
     ∨ spec_excluded (PurePath.name source_dir))
  ∧ PyStr.contains PyStr.slash (PurePath.name source_dir) = false
  ∧ (src ≠ "" → resolve env (Path (src +:+ "/")) = source_dir)
  ∧ (PurePath.root (Path src) = "" →
     resolve env (PurePath.mk "/" (env_cwd env ++ PurePath.tail (Path src))) = source_dir).
Proof.
  intros source_dir Hwf Hcwd Hdir.
  destruct (build_archive_dir env source_dir s Hdir) as (entries & Hwalk & Hbuild).
  unfold source_dir in Hwalk at 1. rewrite (resolve_idem _ _ Hcwd) in Hwalk.
  destruct (walk_valid _ _ _ Hwf Hwalk) as [Hnames Hsub].
  assert (PurePath.name source_dir = "" ∨ valid_name (PurePath.name source_dir) = true)
    as Hname.
  { unfold PurePath.name. fold source_dir in Hnames.
    induction Hnames as [|p ps Hp Hps IH]; [by left|].
    destruct ps; [by right|]. apply IH. }
  assert (PyStr.startswith (PurePath.name source_dir) "/" = false
          ∧ PyStr.contains PyStr.slash (PurePath.name source_dir) = false) as [Hrel Hslash].
  { destruct Hname as [-> | Hv]; [done|]. by destruct (valid_name_facts _ Hv) as (_ & ? & ?). }
  split; [|split; [|split; [|split; [done|split]]]].
  - intros Hfilter.
    destruct (tar_add_root entries (PurePath.to_str source_dir) _ Hsub Hrel Hfilter)
      as (rest & Hadd & Hrest).
    exists rest. split.
    + unfold archive_members. rewrite Hbuild. cbn [snd st_tmp].
      rewrite lookup_insert_eq. by rewrite Hadd.
    + intros Hne. apply Hrest. by destruct Hname.
  - intros Hex. unfold archive_members.
    rewrite Hbuild, (tar_add_excluded _ _ _ Hrel Hex). cbn [fst snd st_tmp].
    split; [done|]. apply lookup_insert_eq.
  - destruct (tar_filter_cases (mkTarInfo (PurePath.name source_dir) DIRTYPE)) as [H|H].
    + right. by apply tar_filter_none in H.
    + left. by rewrite H.
  - intros Hsrc. unfold source_dir. by apply resolve_trailing_slash.
  - intros Hroot. unfold source_dir. by apply resolve_absolute.
Qed.

Lemma archive_root_is_base_name_witness :
  (wf (env_root machine) = true
   ∧ Forall (λ c, c ≠ "..") (env_cwd machine)
   ∧ is_dir machine (resolve machine (Path "proj")) = true
   ∧ tar_filter (mkTarInfo (PurePath.name (resolve machine (Path "proj"))) DIRTYPE) ≠ None
   ∧ ∃ rest,
       archive_members machine (resolve machine (Path "proj")) (initial ∅)
       = Some (mkTarInfo (PurePath.name (resolve machine (Path "proj"))) DIRTYPE :: rest)
       ∧ (PurePath.name (resolve machine (Path "proj")) ≠ "" →
          Forall (λ ti, PyStr.startswith (ti_name ti)
                          (PurePath.name (resolve machine (Path "proj")) +:+ "/") = true)
                 rest))
  ∧ (is_dir machine (resolve machine (Path "venv")) = true
     ∧ spec_excluded (PurePath.name (resolve machine (Path "venv")))
     ∧ archive_members machine (resolve machine (Path "venv")) (initial ∅) = Some []).
Proof.
  assert (Forall (λ c : string, c ≠ "..") (env_cwd machine)) as Hcwd.
  { constructor; [discriminate|constructor]. }
  assert (tar_filter (mkTarInfo (PurePath.name (resolve machine (Path "proj"))) DIRTYPE)
          ≠ None) as Hfilter.
  { vm_compute. discriminate. }
  assert (spec_excluded (PurePath.name (resolve machine (Path "venv")))) as Hex.
  { left. exists "venv". split; [left|].
    apply (bool_decide_eq_true_1 _). vm_compute. reflexivity. }
  split.
  - split; [reflexivity|]. split; [exact Hcwd|]. split; [reflexivity|].
    split; [exact Hfilter|].
    exact (proj1 (archive_root_is_base_name machine "proj" (initial ∅)
                    eq_refl Hcwd eq_refl) Hfilter).
  - split; [reflexivity|]. split; [exact Hex|].
    exact (proj2 (proj1 (proj2 (archive_root_is_base_name machine "venv" (initial ∅)
                                  eq_refl Hcwd eq_refl)) Hex)).
Defined.

(** C3 fails at an archive-building failure: the source directory holds
    a file that cannot be read, [add] raises after the temporary file
    was made, and [main] ends with the exception while the temporary
    archive is still there; nothing was uploaded. *)
Theorem archive_left_behind_when_add_raises :
  let args := mkArgs DEFAULT_HOST DEFAULT_REMOTE_PATH "locked" false in
  (main machine args (initial ∅)).1 = Raise (PermissionError "/home/locked/secret.key")
  ∧ st_tmp (main machine args (initial ∅)).2 !! "/tmp/tmpk3v9.tar.gz"
    = Some [mkTarInfo "locked" DIRTYPE; mkTarInfo "locked/a.py" REGTYPE]
  ∧ st_calls (main machine args (initial ∅)).2 = [].
Proof. vm_compute. done. Qed.

(** C4. When the source path is not a directory, [main] ends with a
    [SystemExit] carrying a message, the process exits with status 1,
    and the state is as before: no archive exists and no external
    command was run. *)
Theorem missing_source_is_fatal (env : Env) (args : Args) (s : State) :
  is_dir env (resolve env (Path (source args))) = false →
  ∃ msg,
    (main env args s).1 = Raise (SystemExit msg)
    ∧ exit_code (main env args s).1 = 1%Z
    ∧ stderr (main env args s).1 = Some msg
    ∧ st_tmp (main env args s).2 = st_tmp s
    ∧ st_calls (main env args s).2 = st_calls s.
Proof.
  intros Hdir. destruct (ensure_tools_cases env s) as [Ht | [missing Ht]].
  - rewrite (main_with_tools _ _ _ Ht), (build_archive_not_dir _ _ _ Hdir).
    by eexists.
  - rewrite (main_without_tools _ _ _ _ _ Ht). by eexists.
Qed.

Lemma missing_source_is_fatal_witness :
  is_dir machine (resolve machine (Path "nowhere")) = false
  ∧ ∃ msg,
      (main machine (mkArgs DEFAULT_HOST DEFAULT_REMOTE_PATH "nowhere" false) (initial ∅)).1
      = Raise (SystemExit msg)
      ∧ exit_code
          (main machine (mkArgs DEFAULT_HOST DEFAULT_REMOTE_PATH "nowhere" false) (initial ∅)).1
        = 1%Z
      ∧ stderr
          (main machine (mkArgs DEFAULT_HOST DEFAULT_REMOTE_PATH "nowhere" false) (initial ∅)).1
        = Some msg
      ∧ st_tmp
          (main machine (mkArgs DEFAULT_HOST DEFAULT_REMOTE_PATH "nowhere" false) (initial ∅)).2
        = st_tmp (initial ∅)
      ∧ st_calls
          (main machine (mkArgs DEFAULT_HOST DEFAULT_REMOTE_PATH "nowhere" false) (initial ∅)).2
        = st_calls (initial ∅).
Proof.
  split; [reflexivity|].
  exact (missing_source_is_fatal machine
           (mkArgs DEFAULT_HOST DEFAULT_REMOTE_PATH "nowhere" false) (initial ∅) eq_refl).
Defined.

(** C5. When [ssh] or [scp] is not found, [main] ends at once with the
    missing-commands message and exit status 1, with the state
    untouched: no archive was made and no external command was run. *)
Theorem missing_tool_is_fatal (env : Env) (args : Args) (s : State) :
  env_which env "ssh" = None ∨ env_which env "scp" = None →
  ∃ missing,
    main env args s
    = (Raise (SystemExit ("Missing required commands: " +:+ missing)), s)
    ∧ exit_code (main env args s).1 = 1%Z
    ∧ stderr (main env args s).1 = Some ("Missing required commands: " +:+ missing).
Proof.
  intros H. destruct (ensure_tools_missing env s H) as [missing Ht].
  exists missing. by rewrite (main_without_tools _ _ _ _ _ Ht).
Qed.

Lemma missing_tool_is_fatal_witness :
  (env_which machine_without_scp "ssh" = None ∨ env_which machine_without_scp "scp" = None)
  ∧ ∃ missing,
      main machine_without_scp default_args (initial ∅)
      = (Raise (SystemExit ("Missing required commands: " +:+ missing)), initial ∅)
      ∧ exit_code (main machine_without_scp default_args (initial ∅)).1 = 1%Z
      ∧ stderr (main machine_without_scp default_args (initial ∅)).1
        = Some ("Missing required commands: " +:+ missing).
Proof.
  split; [right; reflexivity|].
  exact (missing_tool_is_fatal machine_without_scp default_args (initial ∅)
           (or_intror eq_refl)).
Defined.

(** C6. [deploy] runs the copy and then, when the copy succeeded, one
    [ssh] command whose single command string holds every remote step;
    that string starts with [set -euo pipefail;] and reads, for the
    remote shell, as the steps in order, separated by [;]: make and
    enter the parent directory, the backup when it is asked for, remove
    the old directory, extract the uploaded archive, remove the
    uploaded archive.  Whatever commands fail, the shell runs nothing
    after a step that failed; when none fails it runs them all.  The
    archive is uploaded to
    [/tmp/<base name of the remote path>-deploy.tar.gz]. *)
Theorem remote_steps_in_one_invocation
    (env : Env) (host : string) (remote_path archive_path : PurePath.t)
    (skip_backup : bool) (s : State) :
  let scp := scp_call host remote_path archive_path in
  let ssh := ssh_call host remote_path skip_backup in
  st_calls (deploy env host remote_path archive_path skip_backup s).2
  = st_calls s ++ (if Z.eqb (env_status env scp) 0 then [scp; ssh] else [scp])
  ∧ ssh = ["ssh"; host; remote_cmd remote_path skip_backup]
  ∧ (∃ steps, remote_cmd remote_path skip_backup = "set -euo pipefail; " +:+ steps)
  ∧ Sh.lex (remote_cmd remote_path skip_backup)
    = Some (prepare_tokens (remote_base remote_path)
            ++ (if skip_backup then [] else backup_tokens (PurePath.name remote_path))
            ++ replace_tokens (remote_base remote_path) (PurePath.name remote_path)
                              (remote_tmp remote_path))
  ∧ (∀ fails, ∃ tr,
       Sh.trace fails (remote_cmd remote_path skip_backup) = Some tr
       ∧ fail_fast fails (remote_steps remote_path skip_backup) tr)
  ∧ Sh.trace (λ _, false) (remote_cmd remote_path skip_backup)
    = Some (remote_commands remote_path skip_backup)
  ∧ scp = ["scp"; PurePath.to_str archive_path;
           host +:+ ":/tmp/" +:+ PurePath.name remote_path +:+ "-deploy.tar.gz"].
Proof.
  intros scp ssh.
  destruct (remote_steps_plain remote_path) as [H0 Hs].
  destruct (remote_steps_apart remote_path skip_backup) as [Ha Hb].
  split; [|split; [done|split; [by eexists|split; [|split; [|split; [|done]]]]]].
  - rewrite deploy_cases. fold scp ssh. by repeat case_match.
  - apply lex_command.
  - intros fails. eexists. split; [apply remote_trace|].
    exact (errexit_script fails _ _ _ _ _ _ _ _ _ skip_backup H0 Hs Ha Hb).
  - rewrite remote_trace. f_equal.
    exact (all_run _ _ _ _ _ _ _ _ _ skip_backup H0 Hs).
Qed.



(** C8 fails on a first deployment: the target has no directory at the
    remote path, the run is made without the skip option and completes,
    the remote shell runs the command it was sent without the two
    commands of the backup, and the last line printed says that the
    previous install was backed up. *)
Theorem backup_reported_without_backup :
  let target := Path (remote_path proj_args) in
  let name := PurePath.name target in
  let base := remote_base target in
  env_remote_is_dir machine (remote_path proj_args) = false
  ∧ skip_backup proj_args = false
  ∧ (main machine proj_args (initial ∅)).1 = Return tt
  ∧ st_calls (main machine proj_args (initial ∅)).2
    = [scp_call (host proj_args) target (Path (env_tmp_name machine));
       ["ssh"; host proj_args; remote_cmd target false]]
  ∧ Sh.trace (device machine (remote_path proj_args)) (remote_cmd target false)
    = Some [set_step; mkdir_step base; cd_step base; test_step name;
            remove_step name; extract_step base (remote_tmp target);
            cleanup_step (remote_tmp target)]
  ∧ List.last (st_stdout (main machine proj_args (initial ∅)).2) ""
    = "[3/3] Done. Previous install backed up with timestamp suffix.".
Proof.
  intros target name base.
  split; [reflexivity|]. split; [reflexivity|]. split; [by vm_compute|].
  split; [by vm_compute|]. split; [|by vm_compute].
  exact (trace_by_directory target false false).
Qed.

(** C9, as stated, fails: for a remote path with a space in its name
    the destination handed to [scp] is the plain path, not its quoted
    form, and a shell that reads it splits it in two words. *)
Lemma scp_destination_is_not_quoted :
  ¬ scp_destination_quoted "root@venus" (Path "/data/my app") (Path "/tmp/tmpk3v9.tar.gz")
  ∧ Sh.lex (List.last (scp_call "root@venus" (Path "/data/my app")
                                (Path "/tmp/tmpk3v9.tar.gz")) "")
    = Some [Sh.Word (Sh.raw "root@venus:/tmp/my"); Sh.Word (Sh.raw "app-deploy.tar.gz")].
Proof.
  split; [|by vm_compute].
  unfold scp_destination_quoted. vm_compute. discriminate.
Qed.

(** C9 (amended). Every value interpolated into the remote command
    string went through [shlex.quote]: the remote shell reads the
    command as the same tokens whatever the remote path is, each value
    being one word, or one piece of a word, made of its own characters
    taken literally: every character of it is either quoted or not
    special to the shell, no character that [shlex.quote] leaves
    unquoted being special, so that no word of the command undergoes
    pathname, tilde or brace expansion.  The destination handed to
    [scp] is the host, a colon and the remote temporary path as they
    are. *)
Theorem remote_command_is_quoted
    (host : string) (remote_path archive_path : PurePath.t) (skip_backup : bool) :
  Sh.lex (remote_cmd remote_path skip_backup) = Some (remote_tokens remote_path skip_backup)
  ∧ (∀ value cur out,
       Sh.run (Sh.mkL Sh.Unquoted cur out) (shlex.quote value)
       = Some (Sh.mkL Sh.Unquoted (Some (Sh.word_of cur ++ Sh.arg value)) out))
  ∧ (∀ c, shlex.is_safe c = true → Sh.is_special c = false)
  ∧ (∀ value var sub,
       List.forallb Sh.inert (Sh.arg value) = true
       ∧ Sh.in_fragment (Sh.Word (Sh.arg value)) = true
       ∧ Sh.expand var sub (Sh.arg value) = value)
  ∧ List.last (scp_call host remote_path archive_path) ""
    = host +:+ ":" +:+ remote_tmp remote_path.
Proof.
  split; [apply lex_command|]. split; [intros; apply run_quote|].
  split; [apply safe_not_special|].
  split; [|done]. intros value var sub.
  split; [apply arg_inert|]. split; [apply fragment_word, arg_plain|apply expand_arg].
Qed.

(** C10. When the base name of the source directory is an excluded
    name, [build_archive] returns an archive without any member: the
    filter rejects the root entry, and nothing below it is visited. *)
Theorem excluded_source_gives_empty_archive (env : Env) (src : string) (s : State) :
  let source_dir := resolve env (Path src) in
  is_dir env source_dir = true →
  PurePath.name source_dir ∈ IGNORE_NAMES →
  (build_archive env source_dir s).1 = Return (Path (env_tmp_name env))
  ∧ archive_members env source_dir s = Some []
  ∧ (∀ n name, tar_add tar_filter n name (PurePath.name source_dir) = ([], None)).
Proof.
  intros source_dir Hdir Hname.
  destruct (build_archive_dir env source_dir s Hdir) as (entries & _ & Hbuild).
  unfold archive_members. rewrite Hbuild, (tar_add_ignored _ _ _ Hname). cbn [fst snd st_tmp].
  split; [done|]. split; [apply lookup_insert_eq|].
  intros n name. by apply tar_add_ignored.
Qed.

Lemma excluded_source_gives_empty_archive_witness :
  is_dir machine (resolve machine (Path "venv")) = true
  ∧ PurePath.name (resolve machine (Path "venv")) ∈ IGNORE_NAMES
  ∧ archive_members machine (resolve machine (Path "venv")) (initial ∅) = Some [].
Proof.
  assert (PurePath.name (resolve machine (Path "venv")) ∈ IGNORE_NAMES) as Hname.
  { apply (bool_decide_eq_true_1 _). vm_compute. reflexivity. }
  split; [reflexivity|]. split; [exact Hname|].
  exact (proj1 (proj2 (excluded_source_gives_empty_archive machine "venv" (initial ∅)
                         eq_refl Hname))).
Defined.

(** ** More on the archive *)

Section ArchiveMore.

(** What the filter lets through it lets through again. *)
Lemma tar_filter_Some ti ti' : tar_filter ti = Some ti' → ti' = ti ∧ tar_filter ti' = Some ti'.
Proof.
  intros H. destruct (tar_filter_cases ti) as [H'|H']; rewrite H' in H; [done|].
  by simplify_eq.
Qed.

Lemma tar_add_members_pass n : ∀ name arcname,
  Forall (λ ti, tar_filter ti = Some ti) (tar_add tar_filter n name arcname).1.
Proof.
  induction n as [r|entries IH] using node_ind'; intros name arcname; simpl.
  - destruct (tar_filter _) as [ti|] eqn:Hf; [|constructor].
    apply tar_filter_Some in Hf as [-> Hf].
    destruct r; simpl; [|constructor]. by repeat constructor.
  - destruct (tar_filter _) as [ti|] eqn:Hf; [|constructor].
    apply tar_filter_Some in Hf as [-> Hf].
    match goal with |- context [run_visits ?v] =>
      assert (Forall (λ ti, tar_filter ti = Some ti) (run_visits v).1) as Hv;
        [|destruct (run_visits v)] end.
    + apply run_visits_Forall. rewrite merge_sort_Permutation. apply Forall_map.
      apply Forall_forall. intros [f c] Hin. simpl.
      rewrite Forall_forall in IH. apply (IH _ Hin).
    + simpl. by constructor.
Qed.

(** The members of a run of visits come from the visits, and a visit
    that gave a member gave all of its members. *)
Lemma run_visits_elem visits m :
  m ∈ (run_visits visits).1 →
  ∃ v, v ∈ visits ∧ m ∈ v.2.1 ∧ ∀ m', m' ∈ v.2.1 → m' ∈ (run_visits visits).1.
Proof.
  induction visits as [|[f [members [e|]]] visits IH]; simpl.
  - by intros ?%elem_of_nil.
  - intros Hm. exists (f, (members, Some e)). split; [left|]. by split.
  - destruct (run_visits visits) as [members' e'] eqn:Hr. simpl in *.
    intros [Hm|Hm]%elem_of_app.
    + exists (f, (members, None)). split; [left|]. split; [done|].
      intros m' Hm'. apply elem_of_app. by left.
    + destruct (IH Hm) as (v & Hv & Hmv & Hall).
      exists v. split; [by right|]. split; [done|].
      intros m' Hm'. apply elem_of_app. right. by apply Hall.
Qed.

Lemma tar_add_head n name arcname ti :
  ti ∈ (tar_add tar_filter n name arcname).1 →
  gettarinfo n arcname ∈ (tar_add tar_filter n name arcname).1.
Proof.
  destruct n as [r|entries]; simpl.
  - destruct (tar_filter _) as [ti'|] eqn:Hf; [|by intros ?%elem_of_nil].
    apply tar_filter_Some in Hf as [-> Hf]. destruct r; simpl; [|by intros ?%elem_of_nil].
    intros _. left.
  - destruct (tar_filter _) as [ti'|] eqn:Hf; [|by intros ?%elem_of_nil].
    apply tar_filter_Some in Hf as [-> Hf].
    destruct (run_visits _). simpl. intros _. left.
Qed.

(** Every member but the first has the member of its directory in the
    archive as well. *)
Lemma tar_add_parents n : ∀ name arcname,
  wf n = true → PyStr.startswith arcname "/" = false →
  Forall (λ ti, ti_name ti = arcname
              ∨ ∃ parent f, parent ∈ (tar_add tar_filter n name arcname).1
                  ∧ ti_type parent = DIRTYPE ∧ valid_name f = true
                  ∧ ti_name ti = path_join (ti_name parent) f)
         (tar_add tar_filter n name arcname).1.
Proof.
  induction n as [r|entries IH] using node_ind'; intros name arcname Hwf Hrel.
  - simpl. destruct (tar_filter _) as [ti|] eqn:Hf; [|constructor].
    apply tar_filter_Some in Hf as [-> Hf].
    destruct r; simpl; [|constructor]. constructor; [|constructor].
    left. simpl. by apply lstrip_id.
  - apply Forall_forall. intros m Hm.
    pose proof (tar_add_head _ _ _ _ Hm) as Hhead.
    revert Hm Hhead. simpl.
    destruct (tar_filter _) as [ti|] eqn:Hf; [|by intros ?%elem_of_nil].
    apply tar_filter_Some in Hf as [-> Hf].
    match goal with |- context [run_visits ?v] =>
      pose proof (run_visits_elem v m) as Helem; destruct (run_visits v) as [members e] end.
    simpl in *. intros [->|Hm]%elem_of_cons Hhead.
    { left. simpl. by apply lstrip_id. }
    right. destruct (Helem Hm) as (v & Hv & Hmv & Hall).
    rewrite merge_sort_Permutation in Hv.
    apply list_elem_of_fmap in Hv as ([f c] & -> & Hin). simpl in *.
    destruct (wf_entry _ _ _ Hwf Hin) as [Hfv Hc].
    rewrite Forall_forall in IH.
    pose proof (IH _ Hin (path_join name f) (path_join arcname f) Hc
                  (path_join_relative _ _ Hfv Hrel)) as Hchild.
    rewrite Forall_forall in Hchild. destruct (Hchild _ Hmv) as [Hn | (p & g & Hp & ? & ? & ?)].
    + exists (mkTarInfo (PyStr.lstrip PyStr.slash arcname) DIRTYPE), f.
      split; [left|]. split; [done|]. split; [done|]. simpl.
      by rewrite (lstrip_id _ Hrel).
    + exists p, g. split; [right; by apply Hall|]. done.
Qed.

End ArchiveMore.

Section ArchiveComplete.

Lemma run_visits_all visits :
  Forall (λ v : string * added, v.2.2 = None) visits →
  (run_visits visits).2 = None
  ∧ ∀ v m, v ∈ visits → m ∈ v.2.1 → m ∈ (run_visits visits).1.
Proof.
  induction 1 as [|[f [members e]] visits Hv Hvs [IHe IHm]]; simpl in *.
  - split; [done|]. by intros v m ?%elem_of_nil.
  - subst e. destruct (run_visits visits) as [members' e']. simpl in *. split; [done|].
    intros v m [->|Hin]%elem_of_cons Hm; apply elem_of_app; [by left|right; eauto].
Qed.

Lemma filter_any_kind name kind kind' :
  tar_filter (mkTarInfo name kind) ≠ None →
  tar_filter (mkTarInfo name kind') = Some (mkTarInfo name kind').
Proof.
  intros H. destruct (tar_filter_cases (mkTarInfo name kind')) as [H'|H']; [|done].
  exfalso. apply H. apply tar_filter_none. by apply tar_filter_none in H'.
Qed.

Lemma run_visits_ok visits :
  (run_visits visits).2 = None → Forall (λ v : string * added, v.2.2 = None) visits.
Proof.
  induction visits as [|[f [members [e|]]] visits IH]; simpl; [constructor|done|].
  destruct (run_visits visits) as [members' e']. simpl in *.
  intros ->. constructor; [done|]. by apply IH.
Qed.

(** When packing raised nothing, every entry reached along names the
    filter accepts at each level has its member in the archive. *)
Lemma tar_add_complete ps : ∀ n name arcname m,
  wf n = true → (tar_add tar_filter n name arcname).2 = None →
  PyStr.startswith arcname "/" = false →
  walk n ps = Some m →
  (∀ k, tar_filter (mkTarInfo (descend arcname (take k ps)) DIRTYPE) ≠ None) →
  ∃ ti, ti ∈ (tar_add tar_filter n name arcname).1 ∧ ti_name ti = descend arcname ps.
Proof.
  induction ps as [|p ps IH]; intros n name arcname m Hwf Hok Hrel Hwalk Hpass.
  - simpl in Hwalk. simplify_eq. unfold descend. simpl fold_left.
    pose proof (Hpass 0) as H0. unfold descend in H0. simpl in H0.
    exists (gettarinfo m arcname). split; [|by apply lstrip_id].
    revert Hok.
    destruct m as [r|entries]; simpl; unfold gettarinfo; rewrite (lstrip_id _ Hrel);
      rewrite (filter_any_kind _ _ _ H0).
    + destruct r; [left|done].
    + destruct (run_visits _). left.
  - simpl in Hwalk. destruct n as [r|entries]; [done|].
    destruct (child p entries) as [c|] eqn:Hc; [|done].
    apply child_Some in Hc.
    destruct (wf_entry _ _ _ Hwf Hc) as [Hp Hcwf].
    pose proof (Hpass 0) as H0. unfold descend in H0. simpl in H0.
    revert Hok. simpl. unfold gettarinfo. rewrite (lstrip_id _ Hrel), (filter_any_kind _ _ _ H0).
    match goal with |- context [run_visits ?v] =>
      pose proof (run_visits_ok v) as Hall; pose proof (run_visits_all v) as Hmem;
      destruct (run_visits v) as [ms e] eqn:Hrv end.
    simpl in *. intros ->. specialize (Hall eq_refl). destruct (Hmem Hall) as [_ Hin].
    assert ((p, tar_add tar_filter c (path_join name p) (path_join arcname p))
            ∈ merge_sort by_name
                (List.map (λ e, match e with
                                | (f, c) => (f, tar_add tar_filter c (path_join name f)
                                                        (path_join arcname f))
                                end) entries)) as Hv.
    { rewrite merge_sort_Permutation. apply list_elem_of_fmap. by exists (p, c). }
    destruct (IH c (path_join name p) (path_join arcname p) m) as (ti & Hti & Hn);
      [done| |by apply path_join_relative|done| |].
    + rewrite Forall_forall in Hall. apply (Hall _ Hv).
    + intros k. apply (Hpass (S k)).
    + exists ti. split; [|exact Hn]. right. apply (Hin _ _ Hv). exact Hti.
Qed.

Lemma walk_app ps qs : ∀ n,
  walk n (ps ++ qs) = match walk n ps with Some c => walk c qs | None => None end.
Proof.
  induction ps as [|p ps IH]; intros n; simpl; [done|].
  destruct n as [r|entries]; [done|]. destruct (child p entries); [apply IH|done].
Qed.

(** The base name of a directory that exists is a name, or empty for
    the root: it has no separator in front. *)
Lemma source_name_relative env source entries :
  wf (env_root env) = true →
  Forall (λ c, c ≠ "..") (env_cwd env) →
  walk (env_root env) (PurePath.tail (resolve env (resolve env source))) = Some (Dir entries) →
  PyStr.startswith (PurePath.name (resolve env source)) "/" = false
  ∧ wf (Dir entries) = true.
Proof.
  intros Hwf Hcwd Hwalk. rewrite (resolve_idem _ _ Hcwd) in Hwalk.
  destruct (walk_valid _ _ _ Hwf Hwalk) as [Hnames Hsub]. split; [|done].
  unfold PurePath.name. clear Hwalk.
  induction Hnames as [|p ps Hp Hps IH]; [done|].
  destruct ps as [|q ps]; [|apply IH].
  simpl. by destruct (valid_name_facts _ Hp) as (_ & _ & ?).
Qed.

End ArchiveComplete.


(** ** More on the steps of [main] *)

Section MainMore.

Lemma build_archive_frame env source s :
  st_calls (build_archive env source s).2 = st_calls s
  ∧ st_stdout (build_archive env source s).2 = st_stdout s
  ∧ ∀ k, k ≠ file_of (env_tmp_name env) →
         st_tmp (build_archive env source s).2 !! k = st_tmp s !! k.
Proof.
  destruct (is_dir env source) eqn:Hdir.
  - destruct (build_archive_dir env source s Hdir) as (entries & _ & ->).
    cbn [snd st_calls st_stdout st_tmp]. split; [done|]. split; [done|].
    intros k Hk. by rewrite lookup_insert_ne.
  - by rewrite (build_archive_not_dir _ _ _ Hdir).
Qed.

Lemma build_archive_returns env source s archive_path :
  (build_archive env source s).1 = Return archive_path →
  archive_path = Path (env_tmp_name env) ∧ is_dir env source = true.
Proof.
  destruct (is_dir env source) eqn:Hdir.
  - destruct (build_archive_dir env source s Hdir) as (entries & _ & ->).
    cbn [fst]. destruct (tar_add _ _ _ _).2; [done|]. by intros [= <-].
  - by rewrite (build_archive_not_dir _ _ _ Hdir).
Qed.

(** [main] after a [build_archive] that returned: the outcome of
    [deploy], and the state [deploy] left without the archive. *)
Lemma main_after_build env args s archive_path s1 :
  ensure_tools env s = (Return tt, s) →
  build_archive env (resolve env (Path (source args))) s = (Return archive_path, s1) →
  main env args s
  = let d := deploy env (host args) (Path (remote_path args)) archive_path
                    (skip_backup args) s1 in
    (d.1, mkState (delete (PurePath.to_str archive_path) (st_tmp d.2))
                  (st_calls d.2) (st_stdout d.2)).
Proof.
  intros Ht Hb. rewrite (main_with_tools _ _ _ Ht), Hb.
  unfold try_finally, unlink. by destruct (deploy _ _ _ _ _ _).
Qed.

Lemma main_build_raises env args s e s1 :
  ensure_tools env s = (Return tt, s) →
  build_archive env (resolve env (Path (source args))) s = (Raise e, s1) →
  main env args s = (Raise e, s1).
Proof. intros Ht Hb. by rewrite (main_with_tools _ _ _ Ht), Hb. Qed.

(** When [main] ends without an exception. *)
Lemma main_exit_zero env args s :
  exit_code (main env args s).1 = 0%Z
  ↔ env_which env "ssh" ≠ None ∧ env_which env "scp" ≠ None
    ∧ (build_archive env (resolve env (Path (source args))) s).1
      = Return (Path (env_tmp_name env))
    ∧ env_status env (scp_call (host args) (Path (remote_path args))
                               (Path (env_tmp_name env))) = 0%Z
    ∧ env_status env (ssh_call (host args) (Path (remote_path args)) (skip_backup args))
      = 0%Z.
Proof.
  set (source_dir := resolve env (Path (source args))).
  set (remote := Path (remote_path args)).
  set (archive_path := Path (env_tmp_name env)).
  destruct (env_which env "ssh") as [p1|] eqn:Hssh;
    [destruct (env_which env "scp") as [p2|] eqn:Hscp|].
  - assert (ensure_tools env s = (Return tt, s)) as Ht.
    { apply ensure_tools_present; congruence. }
    destruct (build_archive env source_dir s) as [[ap|e] s1] eqn:Hb.
    + pose proof (build_archive_returns env source_dir s ap) as Hap.
      rewrite Hb in Hap. destruct (Hap eq_refl) as [-> _].
      rewrite (main_after_build _ _ _ _ _ Ht Hb). cbn zeta. cbn [fst].
      rewrite deploy_cases. fold remote archive_path.
      destruct (Z.eqb_spec (env_status env (scp_call (host args) remote archive_path)) 0);
        [destruct (Z.eqb_spec
                     (env_status env (ssh_call (host args) remote (skip_backup args))) 0)|];
        simpl; split; try done; try tauto; intros; by repeat split.
    + rewrite (main_build_raises _ _ _ _ _ Ht Hb). simpl. split; [done|].
      intros (_ & _ & H & _). done.
  - destruct (ensure_tools_missing env s (or_intror Hscp)) as [missing Ht].
    rewrite (main_without_tools _ _ _ _ _ Ht). simpl. split; [done|]. tauto.
  - destruct (ensure_tools_missing env s (or_introl Hssh)) as [missing Ht].
    rewrite (main_without_tools _ _ _ _ _ Ht). simpl. split; [done|]. tauto.
Qed.

End MainMore.


(** ** The run of the remote command *)

Section RunMore.

Lemma remote_trace_expected fails remote_path skip_backup :
  Sh.trace fails (remote_cmd remote_path skip_backup)
  = Some (expected_run fails remote_path skip_backup).
Proof.
  rewrite remote_trace. f_equal. unfold remote_script, expected_run.
  destruct (remote_steps_plain remote_path) as [[H0 H0'] Hs].
  repeat match goal with H : Forall _ (_ :: _) |- _ => apply Forall_cons in H as [? H] end.
  destruct skip_backup; cbn [app]; rewrite exec_set by done;
    (destruct (fails set_step) eqn:?; [reflexivity|]);
    repeat (first [ rewrite exec_plain by done | rewrite exec_if by done ];
            match goal with |- context [if fails ?w then _ else _] =>
              destruct (fails w) eqn:?
            end);
    cbn [Sh.exec_seq Sh.x_trace app until_failure orb];
    repeat match goal with H : fails _ = _ |- _ => rewrite H end;
    reflexivity.
Qed.

End RunMore.

(** * Further properties of the tool *)

(** X1. Whatever the source tree holds and however packing ends, no
    member of the archive [build_archive] leaves has an excluded name
    among its path components or an excluded suffix on its final
    name. *)
Theorem archive_has_no_excluded_member (env : Env) (source : PurePath.t) (s : State) :
  is_dir env source = true →
  ∃ members,
    archive_members env source s = Some members
    ∧ Forall (λ ti, ¬ spec_excluded (ti_name ti)) members.
Proof.
  intros Hdir. destruct (build_archive_dir env source s Hdir) as (entries & _ & Hb).
  eexists. split.
  - unfold archive_members. rewrite Hb. cbn [snd st_tmp]. apply lookup_insert_eq.
  - eapply Forall_impl; [apply tar_add_members_pass|].
    intros ti Hti Hex. apply tar_filter_none in Hex. congruence.
Qed.

Lemma archive_has_no_excluded_member_witness :
  is_dir machine (resolve machine (Path "proj")) = true
  ∧ ∃ members,
      archive_members machine (resolve machine (Path "proj")) (initial ∅) = Some members
      ∧ Forall (λ ti, ¬ spec_excluded (ti_name ti)) members.
Proof.
  split; [reflexivity|].
  exact (archive_has_no_excluded_member machine (resolve machine (Path "proj"))
           (initial ∅) eq_refl).
Defined.

(** X2. An entry whose archive name has an excluded name among its
    components is rejected together with everything below it: the
    filter rejects the archive name of every entry reached from it,
    however deep. *)
Theorem ignored_name_excludes_descendants (arcname : string) (ps : list string)
    (kind : tartype) :
  Forall (λ f, PyStr.startswith f "/" = false) ps →
  (∃ part, part ∈ spec_components arcname ∧ part ∈ IGNORE_NAMES) →
  tar_filter (mkTarInfo (descend arcname ps) kind) = None.
Proof.
  intros Hps (part & Hin & Hign). apply tar_filter_none. left. exists part.
  split; [|done]. simpl. clear kind.
  revert arcname Hin. induction Hps as [|f ps Hf Hps IH]; intros arcname Hin; [done|].
  apply IH. apply components_join; [done| |done]. by apply ignored_not_empty.
Qed.

Lemma ignored_name_excludes_descendants_witness :
  Forall (λ f, PyStr.startswith f "/" = false) ["objects"; "pack"]
  ∧ (∃ part, part ∈ spec_components "proj/.git" ∧ part ∈ IGNORE_NAMES)
  ∧ tar_filter (mkTarInfo (descend "proj/.git" ["objects"; "pack"]) DIRTYPE) = None.
Proof.
  assert (Forall (λ f, PyStr.startswith f "/" = false) ["objects"; "pack"]) as Hps.
  { by repeat constructor. }
  assert (∃ part, part ∈ spec_components "proj/.git" ∧ part ∈ IGNORE_NAMES) as Hpart.
  { exists ".git". split; [right; left|].
    apply (bool_decide_eq_true_1 _). vm_compute. reflexivity. }
  split; [exact Hps|]. split; [exact Hpart|].
  exact (ignored_name_excludes_descendants "proj/.git" ["objects"; "pack"] DIRTYPE Hps Hpart).
Defined.

(** X3. In the archive of a source directory every member other than
    the root entry comes with the member of the directory that holds
    it, and that member passed the filter: nothing is archived from
    below a directory the filter rejects, be it for its name or for its
    suffix. *)
Theorem archive_members_have_their_directory (env : Env) (src : string) (s : State) :
  let source_dir := resolve env (Path src) in
  wf (env_root env) = true →
  Forall (λ c, c ≠ "..") (env_cwd env) →
  is_dir env source_dir = true →
  ∃ members,
    archive_members env source_dir s = Some members
    ∧ Forall (λ ti, ti_name ti = PurePath.name source_dir
                ∨ ∃ parent f, parent ∈ members
                    ∧ ti_type parent = DIRTYPE
                    ∧ tar_filter parent = Some parent
                    ∧ valid_name f = true
                    ∧ ti_name ti = path_join (ti_name parent) f)
             members.
Proof.
  intros source_dir Hwf Hcwd Hdir.
  destruct (build_archive_dir env source_dir s Hdir) as (entries & Hwalk & Hb).
  destruct (source_name_relative _ _ _ Hwf Hcwd Hwalk) as [Hrel Hsub].
  eexists. split.
  - unfold archive_members. rewrite Hb. cbn [snd st_tmp]. apply lookup_insert_eq.
  - cbn zeta.
    pose proof (tar_add_members_pass (Dir entries) (PurePath.to_str source_dir)
                  (PurePath.name source_dir)) as Hpass.
    eapply Forall_impl; [apply (tar_add_parents _ _ _ Hsub Hrel)|].
    intros ti [Hti | (parent & f & Hp & Hty & Hf & Hn)]; [by left|right].
    exists parent, f. split; [done|]. split; [done|]. split; [|done].
    rewrite Forall_forall in Hpass. by apply Hpass.
Qed.

Lemma archive_members_have_their_directory_witness :
  wf (env_root machine) = true
  ∧ Forall (λ c, c ≠ "..") (env_cwd machine)
  ∧ is_dir machine (resolve machine (Path "proj")) = true
  ∧ ∃ members,
      archive_members machine (resolve machine (Path "proj")) (initial ∅) = Some members
      ∧ Forall (λ ti, ti_name ti = PurePath.name (resolve machine (Path "proj"))
                  ∨ ∃ parent f, parent ∈ members
                      ∧ ti_type parent = DIRTYPE
                      ∧ tar_filter parent = Some parent
                      ∧ valid_name f = true
                      ∧ ti_name ti = path_join (ti_name parent) f)
               members.
Proof.
  assert (Forall (λ c : string, c ≠ "..") (env_cwd machine)) as Hcwd.
  { constructor; [discriminate|constructor]. }
  split; [reflexivity|]. split; [exact Hcwd|]. split; [reflexivity|].
  exact (archive_members_have_their_directory machine "proj" (initial ∅)
           eq_refl Hcwd eq_refl).
Defined.

(** X4. When [build_archive] returns, the archive holds, for every
    regular file and directory below the source directory that is
    reached along names the filter accepts at each level, a member
    under the archive name made of the base name of the source and
    those names. *)
Theorem archive_holds_every_accepted_entry
    (env : Env) (src : string) (s : State) (ps : list string) (m : node) :
  let source_dir := resolve env (Path src) in
  wf (env_root env) = true →
  Forall (λ c, c ≠ "..") (env_cwd env) →
  (build_archive env source_dir s).1 = Return (Path (env_tmp_name env)) →
  walk (env_root env) (PurePath.tail source_dir ++ ps) = Some m →
  (∀ k, tar_filter (mkTarInfo (descend (PurePath.name source_dir) (take k ps)) DIRTYPE)
        ≠ None) →
  ∃ members ti,
    archive_members env source_dir s = Some members
    ∧ ti ∈ members
    ∧ ti_name ti = descend (PurePath.name source_dir) ps.
Proof.
  intros source_dir Hwf Hcwd Hret Hwalk Hpass.
  destruct (build_archive_returns _ _ _ _ Hret) as [_ Hdir].
  destruct (build_archive_dir env source_dir s Hdir) as (entries & Hw & Hb).
  destruct (source_name_relative _ _ _ Hwf Hcwd Hw) as [Hrel Hsub].
  unfold source_dir in Hw at 1. rewrite (resolve_idem _ _ Hcwd) in Hw.
  fold source_dir in Hw. rewrite walk_app, Hw in Hwalk.
  assert ((tar_add tar_filter (Dir entries) (PurePath.to_str source_dir)
                   (PurePath.name source_dir)).2 = None) as Hok.
  { rewrite Hb in Hret. cbn [fst] in Hret. by destruct (tar_add _ _ _ _).2. }
  destruct (tar_add_complete ps _ (PurePath.to_str source_dir) _ m Hsub Hok Hrel
              Hwalk Hpass) as (ti & Hin & Hn).
  eexists. exists ti. split; [|split; [exact Hin|exact Hn]].
  unfold archive_members. rewrite Hb. cbn [snd st_tmp]. apply lookup_insert_eq.
Qed.

Lemma archive_holds_every_accepted_entry_witness :
  (build_archive machine (resolve machine (Path "proj")) (initial ∅)).1
  = Return (Path (env_tmp_name machine))
  ∧ ∃ members ti,
      archive_members machine (resolve machine (Path "proj")) (initial ∅) = Some members
      ∧ ti ∈ members
      ∧ ti_name ti = descend (PurePath.name (resolve machine (Path "proj"))) ["app.py"].
Proof.
  assert (Forall (λ c : string, c ≠ "..") (env_cwd machine)) as Hcwd.
  { constructor; [discriminate|constructor]. }
  assert ((build_archive machine (resolve machine (Path "proj")) (initial ∅)).1
          = Return (Path (env_tmp_name machine))) as Hret by (by vm_compute).
  assert (∀ k, tar_filter (mkTarInfo (descend (PurePath.name (resolve machine (Path "proj")))
                                              (take k ["app.py"])) DIRTYPE) ≠ None) as Hpass.
  { intros [|[|k]]; vm_compute; discriminate. }
  split; [exact Hret|].
  exact (archive_holds_every_accepted_entry machine "proj" (initial ∅) ["app.py"]
           (File true) eq_refl Hcwd Hret eq_refl Hpass).
Defined.

(** X5. [ensure_tools] leaves the state alone; it returns when [ssh]
    and [scp] are both found, and otherwise exits with a message that
    names the missing ones, [ssh] before [scp], separated by a comma
    and a space. *)
Theorem ensure_tools_names_what_is_missing (env : Env) (s : State) :
  ensure_tools env s
  = (match env_which env "ssh", env_which env "scp" with
     | Some _, Some _ => Return tt
     | None, Some _ => Raise (SystemExit "Missing required commands: ssh")
     | Some _, None => Raise (SystemExit "Missing required commands: scp")
     | None, None => Raise (SystemExit "Missing required commands: ssh, scp")
     end, s).
Proof.
  unfold ensure_tools. simpl.
  by destruct (env_which env "ssh"), (env_which env "scp").
Qed.

(** X6. [build_archive] runs no external command and prints nothing,
    and of the temporary directory it touches one file only, the one it
    creates: every other file is as it was, whether it returns, exits
    or raises. *)
Theorem build_archive_touches_one_file (env : Env) (source : PurePath.t) (s : State) :
  st_calls (build_archive env source s).2 = st_calls s
  ∧ st_stdout (build_archive env source s).2 = st_stdout s
  ∧ (∀ k, k ≠ file_of (env_tmp_name env) →
          st_tmp (build_archive env source s).2 !! k = st_tmp s !! k)
  ∧ (is_dir env source = false → (build_archive env source s).2 = s)
  ∧ (is_dir env source = true →
     is_Some (st_tmp (build_archive env source s).2 !! file_of (env_tmp_name env))).
Proof.
  destruct (build_archive_frame env source s) as (Hc & Ho & Hk).
  split; [done|]. split; [done|]. split; [done|]. split.
  - intros Hdir. by rewrite (build_archive_not_dir _ _ _ Hdir).
  - intros Hdir. destruct (build_archive_dir env source s Hdir) as (entries & _ & ->).
    cbn [snd st_tmp]. rewrite lookup_insert_eq. by eexists.
Qed.

(** X7. [deploy] returns exactly when both external commands exit with
    status 0.  When the copy fails the remote command is never run and
    the exception carries the copy command and its status; when the
    remote command fails the exception carries that command and its
    status.  The completion line is printed exactly when [deploy]
    returns, and the temporary directory is not touched. *)
Theorem deploy_outcome
    (env : Env) (host : string) (remote_path archive_path : PurePath.t)
    (skip_backup : bool) (s : State) :
  let scp := scp_call host remote_path archive_path in
  let ssh := ssh_call host remote_path skip_backup in
  let r := (deploy env host remote_path archive_path skip_backup s).1 in
  let s' := (deploy env host remote_path archive_path skip_backup s).2 in
  (r = Return tt ↔ env_status env scp = 0%Z ∧ env_status env ssh = 0%Z)
  ∧ (env_status env scp ≠ 0%Z →
     r = Raise (CalledProcessError (env_status env scp) scp)
     ∧ st_calls s' = st_calls s ++ [scp])
  ∧ (env_status env scp = 0%Z → env_status env ssh ≠ 0%Z →
     r = Raise (CalledProcessError (env_status env ssh) ssh)
     ∧ st_calls s' = st_calls s ++ [scp; ssh])
  ∧ (done_message skip_backup ∈ drop (length (st_stdout s)) (st_stdout s')
     ↔ r = Return tt)
  ∧ st_tmp s' = st_tmp s.
Proof.
  intros scp ssh r s'. subst r s'. rewrite deploy_cases. fold scp ssh.
  destruct (Z.eqb_spec (env_status env scp) 0) as [Hscp|Hscp];
    [destruct (Z.eqb_spec (env_status env ssh) 0) as [Hssh|Hssh]|];
    cbn [fst snd st_calls st_stdout st_tmp]; rewrite list.drop_app_length;
    (split; [split; [try done; tauto|try done; tauto]|]);
    (split; [try done; tauto|]); (split; [try done; tauto|]); (split; [|done]);
    rewrite ?elem_of_cons, elem_of_nil; split; try done.
  - intros _. tauto.
  - intros [H|[H|[]]]; destruct skip_backup; discriminate H.
  - intros [H|[]]; destruct skip_backup; discriminate H.
Qed.

(** X8. Once [build_archive] has returned, [main] leaves the temporary
    directory as it found it, whether the copy fails, the remote
    command fails or the run completes. *)
Theorem main_restores_temporary_directory
    (env : Env) (args : Args) (s : State) (archive_path : PurePath.t) :
  env_which env "ssh" ≠ None → env_which env "scp" ≠ None →
  st_tmp s !! file_of (env_tmp_name env) = None →
  (build_archive env (resolve env (Path (source args))) s).1 = Return archive_path →
  st_tmp (main env args s).2 = st_tmp s.
Proof.
  intros Hssh Hscp Hfresh Hb.
  pose proof (ensure_tools_present env s Hssh Hscp) as Ht.
  destruct (build_archive env (resolve env (Path (source args))) s) as [r s1] eqn:Hbuild.
  simpl in Hb. subst r. by eapply main_cleans_after_build.
Qed.

Lemma main_restores_temporary_directory_witness :
  env_which machine_upload_fails "ssh" ≠ None
  ∧ env_which machine_upload_fails "scp" ≠ None
  ∧ st_tmp (initial ∅) !! file_of (env_tmp_name machine_upload_fails) = None
  ∧ (build_archive machine_upload_fails
       (resolve machine_upload_fails (Path (source proj_args))) (initial ∅)).1
    = Return (Path "/tmp/tmpk3v9.tar.gz")
  ∧ exit_code (main machine_upload_fails proj_args (initial ∅)).1 = 1%Z
  ∧ st_tmp (main machine_upload_fails proj_args (initial ∅)).2 = st_tmp (initial ∅).
Proof.
  assert (env_which machine_upload_fails "ssh" ≠ None) as Hssh by discriminate.
  assert (env_which machine_upload_fails "scp" ≠ None) as Hscp by discriminate.
  assert ((build_archive machine_upload_fails
             (resolve machine_upload_fails (Path (source proj_args))) (initial ∅)).1
          = Return (Path "/tmp/tmpk3v9.tar.gz")) as Hb by (by vm_compute).
  split; [exact Hssh|]. split; [exact Hscp|]. split; [reflexivity|]. split; [exact Hb|].
  split; [by vm_compute|].
  exact (main_restores_temporary_directory machine_upload_fails proj_args (initial ∅)
           (Path "/tmp/tmpk3v9.tar.gz") Hssh Hscp eq_refl Hb).
Defined.

(** X9. The process exits with status 0 exactly when [parse_args]
    printed the help text, or returned the options and then both tools
    are found, [build_archive] returns the archive, and the copy and the
    remote command both exit with status 0.  It exits with status 2
    exactly when [parse_args] rejected the command line, and with
    status 1 exactly when [parse_args] returned the options and one of
    those conditions fails. *)
Theorem main_succeeds_iff (env : Env) (cmdline : parsed) (s : State) :
  let archive_path := Path (env_tmp_name env) in
  let completes args :=
    env_which env "ssh" ≠ None ∧ env_which env "scp" ≠ None
    ∧ (build_archive env (resolve env (Path (source args))) s).1 = Return archive_path
    ∧ env_status env (scp_call (host args) (Path (remote_path args)) archive_path) = 0%Z
    ∧ env_status env (ssh_call (host args) (Path (remote_path args)) (skip_backup args))
      = 0%Z in
  (process_status env cmdline s = 0%Z
   ↔ cmdline = HelpExit ∨ ∃ args, cmdline = Parsed args ∧ completes args)
  ∧ (process_status env cmdline s = 2%Z ↔ cmdline = UsageExit)
  ∧ (process_status env cmdline s = 1%Z
     ↔ ∃ args, cmdline = Parsed args ∧ ¬ completes args).
Proof.
  intros archive_path completes.
  assert (∀ args, (exit_code (main env args s).1 = 0%Z ↔ completes args)
                  ∧ (exit_code (main env args s).1 = 0%Z
                     ∨ exit_code (main env args s).1 = 1%Z)) as Hmain.
  { intros args. split; [apply main_exit_zero|]. by destruct (main env args s).1; auto. }
  destruct cmdline as [args| |]; cbn [process_status].
  - destruct (Hmain args) as [Hiff Hcases]. split; [|split].
    + rewrite Hiff. split.
      * intros H. right. by exists args.
      * intros [H|(args' & [= <-] & H)]; done.
    + split; [|done]. intros H. rewrite H in Hcases. by destruct Hcases.
    + split.
      * intros H. exists args. split; [done|]. rewrite <- Hiff, H. done.
      * intros (args' & [= <-] & H). rewrite <- Hiff in H. by destruct Hcases.
  - split; [|split]; split; try done; try (by left); by intros (? & ? & _).
  - split; [|split]; split; try done; try (by intros (? & ? & _)).
    by intros [?|(? & ? & _)].
Qed.

(** X10. When [build_archive] raises, [main] ends with that exception
    before anything is printed and before any external command is
    run. *)
Theorem archive_failure_stops_before_network
    (env : Env) (args : Args) (s : State) (e : exn) :
  env_which env "ssh" ≠ None → env_which env "scp" ≠ None →
  (build_archive env (resolve env (Path (source args))) s).1 = Raise e →
  (main env args s).1 = Raise e
  ∧ st_calls (main env args s).2 = st_calls s
  ∧ st_stdout (main env args s).2 = st_stdout s.
Proof.
  intros Hssh Hscp Hb.
  pose proof (ensure_tools_present env s Hssh Hscp) as Ht.
  destruct (build_archive_frame env (resolve env (Path (source args))) s) as (Hc & Ho & _).
  destruct (build_archive env (resolve env (Path (source args))) s) as [r s1] eqn:Hbuild.
  simpl in *. subst r. by rewrite (main_build_raises _ _ _ _ _ Ht Hbuild).
Qed.

Lemma archive_failure_stops_before_network_witness :
  env_which machine "ssh" ≠ None
  ∧ env_which machine "scp" ≠ None
  ∧ (build_archive machine
       (resolve machine (Path (source (mkArgs DEFAULT_HOST DEFAULT_REMOTE_PATH "locked" false))))
       (initial ∅)).1
    = Raise (PermissionError "/home/locked/secret.key")
  ∧ st_calls (main machine (mkArgs DEFAULT_HOST DEFAULT_REMOTE_PATH "locked" false)
                   (initial ∅)).2
    = st_calls (initial ∅).
Proof.
  assert (env_which machine "ssh" ≠ None) as Hssh by discriminate.
  assert (env_which machine "scp" ≠ None) as Hscp by discriminate.
  assert ((build_archive machine
             (resolve machine
                (Path (source (mkArgs DEFAULT_HOST DEFAULT_REMOTE_PATH "locked" false))))
             (initial ∅)).1
          = Raise (PermissionError "/home/locked/secret.key")) as Hb by (by vm_compute).
  split; [exact Hssh|]. split; [exact Hscp|]. split; [exact Hb|].
  exact (proj1 (proj2 (archive_failure_stops_before_network machine
                         (mkArgs DEFAULT_HOST DEFAULT_REMOTE_PATH "locked" false)
                         (initial ∅) _ Hssh Hscp Hb))).
Defined.

(** X11. For an absolute remote path with a last component, the
    directory the remote command enters and the name it tests, backs
    up, removes and expects the archive to recreate there join back to
    the remote path. *)
Theorem command_works_on_the_remote_path (remote : string) :
  PurePath.root (Path remote) ≠ "" → PurePath.tail (Path remote) ≠ [] →
  path_join (remote_base (Path remote)) (PurePath.name (Path remote))
  = PurePath.to_str (Path remote).
Proof. apply remote_path_rejoined. Qed.

Lemma command_works_on_the_remote_path_witness :
  PurePath.root (Path DEFAULT_REMOTE_PATH) ≠ ""
  ∧ PurePath.tail (Path DEFAULT_REMOTE_PATH) ≠ []
  ∧ path_join (remote_base (Path DEFAULT_REMOTE_PATH))
              (PurePath.name (Path DEFAULT_REMOTE_PATH))
    = PurePath.to_str (Path DEFAULT_REMOTE_PATH).
Proof.
  assert (PurePath.root (Path DEFAULT_REMOTE_PATH) ≠ "") as Hroot by discriminate.
  assert (PurePath.tail (Path DEFAULT_REMOTE_PATH) ≠ []) as Htail by discriminate.
  split; [exact Hroot|]. split; [exact Htail|].
  exact (command_works_on_the_remote_path DEFAULT_REMOTE_PATH Hroot Htail).
Defined.

(** X12. Whatever commands fail on the target, the remote shell runs
    [set] and, unless [set] itself fails, which ends the run at once,
    the steps of the command in their order up to the first one that
    fails; the test of the [if] never ends the run, it only decides
    whether the two backup commands are among the steps. *)
Theorem remote_run_stops_at_first_failure
    (fails : list (list Sh.seg) → bool) (remote_path : PurePath.t) (skip_backup : bool) :
  Sh.trace fails (remote_cmd remote_path skip_backup)
  = Some (expected_run fails remote_path skip_backup).
Proof. apply remote_trace_expected. Qed.

(** X13. In every run of the remote command the old directory is
    removed only after the parent directory was made and entered, and,
    unless the backup was skipped, only after the backup archive was
    written when the test found the directory; and the uploaded archive
    is removed from the target only after the removal and the
    extraction succeeded. *)
Theorem removal_comes_after_backup
    (fails : list (list Sh.seg) → bool) (remote_path : PurePath.t) (skip_backup : bool) :
  let base := remote_base remote_path in
  let name := PurePath.name remote_path in
  ∃ tr,
    Sh.trace fails (remote_cmd remote_path skip_backup) = Some tr
    ∧ (remove_step name ∈ tr →
       fails (mkdir_step base) = false ∧ fails (cd_step base) = false
       ∧ (skip_backup = false → fails (test_step name) = false →
          backup_step_words name ∈ tr
          ∧ fails stamp_step = false ∧ fails (backup_step_words name) = false))
    ∧ (cleanup_step (remote_tmp remote_path) ∈ tr →
       extract_step base (remote_tmp remote_path) ∈ tr
       ∧ fails (remove_step name) = false
       ∧ fails (extract_step base (remote_tmp remote_path)) = false).
Proof.
  intros base name. eexists. split; [apply remote_trace_expected|].
  unfold expected_run. fold base name.
  destruct skip_backup;
    repeat (cbn [app until_failure orb];
            match goal with
            | |- context [if fails ?w then _ else _] => destruct (fails w) eqn:?
            | |- context [fails ?w || _] => destruct (fails w) eqn:?
            end);
    cbn [app until_failure orb];
    (split; intros Hin;
     repeat (apply elem_of_cons in Hin as [Hin|Hin]; [try discriminate Hin|]);
     try (by apply elem_of_nil in Hin);
     repeat split; try done; try (intros; congruence);
     rewrite ?elem_of_cons; tauto).
Qed.

Lemma removal_comes_after_backup_witness :
  ∃ tr,
    Sh.trace (λ _, false) (remote_cmd (Path DEFAULT_REMOTE_PATH) false) = Some tr
    ∧ remove_step (PurePath.name (Path DEFAULT_REMOTE_PATH)) ∈ tr
    ∧ backup_step_words (PurePath.name (Path DEFAULT_REMOTE_PATH)) ∈ tr
    ∧ cleanup_step (remote_tmp (Path DEFAULT_REMOTE_PATH)) ∈ tr
    ∧ extract_step (remote_base (Path DEFAULT_REMOTE_PATH))
                   (remote_tmp (Path DEFAULT_REMOTE_PATH)) ∈ tr.
Proof.
  destruct (removal_comes_after_backup (λ _, false) (Path DEFAULT_REMOTE_PATH) false)
    as (tr & Htr & Hrm & Hcl).
  exists tr. split; [exact Htr|].
  assert (remove_step (PurePath.name (Path DEFAULT_REMOTE_PATH)) ∈ tr
          ∧ cleanup_step (remote_tmp (Path DEFAULT_REMOTE_PATH)) ∈ tr) as [Hin1 Hin2].
  { rewrite remote_trace_expected in Htr. injection Htr as <-.
    unfold expected_run. cbn [until_failure app orb].
    split; [apply (list_elem_of_lookup_2 _ 6)|apply (list_elem_of_lookup_2 _ 8)];
      reflexivity. }
  split; [exact Hin1|].
  split; [exact (proj1 (proj2 (proj2 (Hrm Hin1)) eq_refl eq_refl))|].
  split; [exact Hin2|].
  exact (proj1 (Hcl Hin2)).
Defined.

(** X14. An invocation starts at most two external commands: the copy
    of the archive, once, and after it the remote command, once; neither
    is repeated after a failure.  When the process exits with status 0
    both have run, and the remote command never runs without the copy
    before it. *)
Theorem main_runs_each_command_once (env : Env) (args : Args) (s : State) :
  let remote := Path (remote_path args) in
  let archive_path := Path (env_tmp_name env) in
  let scp := scp_call (host args) remote archive_path in
  let ssh := ssh_call (host args) remote (skip_backup args) in
  ∃ calls, st_calls (main env args s).2 = st_calls s ++ calls
    ∧ (calls = [] ∨ calls = [scp] ∨ calls = [scp; ssh])
    ∧ (exit_code (main env args s).1 = 0%Z → calls = [scp; ssh])
    ∧ (calls = [scp] → env_status env scp ≠ 0%Z).
Proof.
  intros remote archive_path scp ssh.
  destruct (env_which env "ssh") as [p1|] eqn:Hssh;
    [destruct (env_which env "scp") as [p2|] eqn:Hscp|].
  - assert (ensure_tools env s = (Return tt, s)) as Ht.
    { apply ensure_tools_present; congruence. }
    destruct (build_archive_frame env (resolve env (Path (source args))) s) as (Hc & _ & _).
    destruct (build_archive env (resolve env (Path (source args))) s)
      as [[ap|e] s1] eqn:Hb; cbn [snd] in Hc.
    + pose proof (build_archive_returns env (resolve env (Path (source args))) s ap) as Hap.
      rewrite Hb in Hap. destruct (Hap eq_refl) as [-> _].
      rewrite (main_after_build _ _ _ _ _ Ht Hb). cbn zeta. cbn [fst snd st_calls].
      rewrite deploy_cases. fold remote archive_path scp ssh.
      destruct (Z.eqb_spec (env_status env scp) 0);
        [destruct (Z.eqb_spec (env_status env ssh) 0)|];
        cbn [fst snd st_calls exit_code]; rewrite Hc; eexists; (split; [reflexivity|]);
        repeat split; auto; try discriminate.
    + rewrite (main_build_raises _ _ _ _ _ Ht Hb). cbn [fst snd exit_code]. rewrite Hc.
      exists []. rewrite app_nil_r. repeat split; auto; discriminate.
  - destruct (ensure_tools_missing env s (or_intror Hscp)) as [missing Ht].
    rewrite (main_without_tools _ _ _ _ _ Ht). cbn [fst snd exit_code].
    exists []. rewrite app_nil_r. repeat split; auto; discriminate.
  - destruct (ensure_tools_missing env s (or_introl Hssh)) as [missing Ht].
    rewrite (main_without_tools _ _ _ _ _ Ht). cbn [fst snd exit_code].
    exists []. rewrite app_nil_r. repeat split; auto; discriminate.
Qed.
